(** * open-scd-core: the editing session of [src/open-scd.ts]

    A shallow embedding of the [OpenSCD] custom element: its edit history
    ([handleEditEvent], [handleEditEventV2], [squashUndo], [squashRedo],
    [undo], [redo]), the active-document accessor [doc] and the plugin
    registry ([pluginTag], [loadPlugin]).

    Conventions.
    - JavaScript numbers that only ever hold counts ([editCount],
      [docVersion], the argument [n] of [undo]/[redo]) are integers [Z].
    - DOM nodes are object references; a reference is a number ([Node]).
    - What the element imports from elsewhere ([handleEdit] and
      [convertEdit] of xml-lib, [cyrb64] of [foundation.js], the [URL]
      constructor) is the interface [Platform].
    - A method is a function from the state before to a [Completion]
      holding the state after: [Normal], or [TypeError] when the
      JavaScript throws. *)

From Equations Require Import Equations.
From stdpp Require Import gmap strings list fin_maps.

Local Open Scope Z_scope.

(** ** Values *)

(** A DOM node, by reference. *)
Definition Node := positive.

(** [EditV2] of xml-lib: one of the edit objects, or an array of edits
    ([Complex]); [x instanceof Array] is a match on [Complex]. *)
#[warning="-register-all"]
Inductive EditV2 : Type :=
| Insert (parent node : Node) (reference : option Node)
| Remove (node : Node)
| SetAttributes (element : Node) (attributes : list (string * option string))
| Complex (edits : list EditV2).

(** [export type LogEntry = { undo: EditV2; redo: EditV2; title?: string }] *)
Module LogEntry.
Record t : Type := make { undo : EditV2; redo : EditV2; title : option string }.
End LogEntry.
Abbreviation LogEntry := LogEntry.t.

(** [Plugin] of [foundation/plugin-event.ts]. *)
Record Plugin : Type := mkPlugin {
  name : string;
  translations : option (list (string * string));
  src : string;
  icon : string;
  requireDoc : option bool;
  active : option bool
}.

(** The detail of an [EditEventV2]: [{ edit, title?, squash? }]. *)
Record EditDetailV2 : Type := mkEditDetailV2 {
  edit : EditV2;
  title : option string;
  squash : option bool
}.

(** ** JavaScript primitives used by the element *)
Module Js.

(** Truthiness of an optional string: [undefined] and the empty string
    are falsy. *)
Definition truthy (v : option string) : bool :=
  match v with
  | Some (String _ _) => true
  | Some EmptyString | None => false
  end.

(** [a || b] on optional strings. *)
Definition or (a b : option string) : option string :=
  if truthy a then a else b.

(** [!!b] on an optional boolean. *)
Definition toBoolean (b : option bool) : bool :=
  match b with Some true => true | _ => false end.

(** [arr[i]] for an integer [i]: [undefined] out of range. *)
Definition at_ {A} (arr : list A) (i : Z) : option A :=
  if i <? 0 then None else arr !! Z.to_nat i.

(** The start index [Array.prototype.splice] computes from its first
    argument: a negative one counts from the end, and the result is
    clamped to [0 .. length]. *)
Definition actualStart (len start : Z) : Z :=
  if start <? 0 then Z.max (len + start) 0 else Z.min start len.

(** [arr.splice(start)]: with one argument, everything from the start
    index on is removed; what is left of the array is returned here. *)
Definition splice {A} (arr : list A) (start : Z) : list A :=
  take (Z.to_nat (actualStart (Z.of_nat (length arr)) start)) arr.

(** [arr.pop()]: the array without its last element; nothing happens
    to an empty array. *)
Definition pop {A} (arr : list A) : list A := removelast arr.

(** [arr.push(x)] *)
Definition push {A} (arr : list A) (x : A) : list A := arr ++ [x].

(** [arr[arr.length - 1]] *)
Definition lastOf {A} (arr : list A) : option A :=
  at_ arr (Z.of_nat (length arr) - 1).

(** The property names every plain object inherits from
    [Object.prototype]: [obj[k]] finds them although [k] is no key of
    [obj]. *)
Definition objectPrototype : list string :=
  [ "constructor"; "__proto__"; "hasOwnProperty"; "isPrototypeOf";
    "propertyIsEnumerable"; "toLocaleString"; "toString"; "valueOf";
    "__defineGetter__"; "__defineSetter__"; "__lookupGetter__";
    "__lookupSetter__" ]%string.

(** The result of reading a property of a record of documents. *)
Inductive Value (A : Type) : Type :=
| Own (a : A)             (* the value stored under the key *)
| Inherited (k : string)  (* a member of [Object.prototype] *)
| Undefined.
Arguments Own {A} a.
Arguments Inherited {A} k.
Arguments Undefined {A}.

(** How the evaluation of an expression ends. *)
Inductive Error : Type := NotFound | TypeErr.
Inductive Result (A : Type) : Type :=
| Return (v : A)
| Throw (e : Error).
Arguments Return {A} v.
Arguments Throw {A} e.

(** [obj[k]] on a plain object used as a map. *)
Definition get {A} (obj : gmap string A) (k : string) : Value A :=
  match obj !! k with
  | Some a => Own a
  | None => if bool_decide (k ∈ objectPrototype) then Inherited k else Undefined
  end.

End Js.

(** ** What the element imports *)
Class Platform : Type := {
  (** the DOM: every tree the edits can touch *)
  Dom : Type;
  (** the legacy [Edit] of an [EditEvent] *)
  Edit : Type;
  (** xml-lib [convertEdit] *)
  convertEdit : Edit → EditV2;
  (** xml-lib [handleEdit]: mutates the DOM and returns the inverse edit;
      it is taken to return normally on every edit *)
  handleEdit : EditV2 → Dom → EditV2 * Dom;
  (** [cyrb64] of [foundation.js] *)
  cyrb64 : string → string;
  (** [new URL(src, window.location.href).toString()]; [None] when the
      constructor throws *)
  resolveURL : string → option string
}.

(** ** The element *)
Section OpenSCD.
Context `{Platform}.

(** The fields of the element, followed by the globals its methods reach:
    the DOM, the module-level [pluginTags] map, the [customElements]
    registry, and the dynamic imports started so far (URL and the tag the
    module will be defined under). *)
Record OpenSCD : Type := mkOpenSCD {
  history : list LogEntry;
  docVersion : Z;
  editCount : Z;
  docs : gmap string Node;
  docName : string;
  loadedPlugins : gmap string Plugin;
  plugins_menu : list Plugin;
  plugins_editor : list Plugin;
  dom : Dom;
  pluginTags : gmap string string;
  customElements : gset string;
  imports : list (string * string)
}.

Definition set_history (h : list LogEntry) (s : OpenSCD) : OpenSCD :=
  mkOpenSCD h (docVersion s) (editCount s) (docs s) (docName s)
    (loadedPlugins s) (plugins_menu s) (plugins_editor s) (dom s)
    (pluginTags s) (customElements s) (imports s).

Definition set_docVersion (v : Z) (s : OpenSCD) : OpenSCD :=
  mkOpenSCD (history s) v (editCount s) (docs s) (docName s)
    (loadedPlugins s) (plugins_menu s) (plugins_editor s) (dom s)
    (pluginTags s) (customElements s) (imports s).

Definition set_editCount (c : Z) (s : OpenSCD) : OpenSCD :=
  mkOpenSCD (history s) (docVersion s) c (docs s) (docName s)
    (loadedPlugins s) (plugins_menu s) (plugins_editor s) (dom s)
    (pluginTags s) (customElements s) (imports s).

Definition set_dom (d : Dom) (s : OpenSCD) : OpenSCD :=
  mkOpenSCD (history s) (docVersion s) (editCount s) (docs s) (docName s)
    (loadedPlugins s) (plugins_menu s) (plugins_editor s) d
    (pluginTags s) (customElements s) (imports s).

Definition set_loadedPlugins (m : gmap string Plugin) (s : OpenSCD) : OpenSCD :=
  mkOpenSCD (history s) (docVersion s) (editCount s) (docs s) (docName s)
    m (plugins_menu s) (plugins_editor s) (dom s)
    (pluginTags s) (customElements s) (imports s).

Definition set_pluginTags (m : gmap string string) (s : OpenSCD) : OpenSCD :=
  mkOpenSCD (history s) (docVersion s) (editCount s) (docs s) (docName s)
    (loadedPlugins s) (plugins_menu s) (plugins_editor s) (dom s)
    m (customElements s) (imports s).

Definition set_imports (l : list (string * string)) (s : OpenSCD) : OpenSCD :=
  mkOpenSCD (history s) (docVersion s) (editCount s) (docs s) (docName s)
    (loadedPlugins s) (plugins_menu s) (plugins_editor s) (dom s)
    (pluginTags s) (customElements s) l.

(** The element as its constructor and field initialisers leave it, in an
    environment with the given DOM, tag memo and element registry. *)
Definition new_OpenSCD (d : Dom) (tags : gmap string string)
    (defined : gset string) : OpenSCD :=
  mkOpenSCD [] 0 0 ∅ EmptyString ∅ [] [] d tags defined [].

(** How a method call ends. *)
Inductive Completion : Type :=
| Normal (s : OpenSCD)
| TypeError (s : OpenSCD).

(** *** Getters *)

(** [get doc() { return this.docs[this.docName]; }] *)
Definition doc (s : OpenSCD) : Js.Result (Js.Value Node) :=
  Js.Return (Js.get (docs s) (docName s)).

(** [get last() { return this.editCount - 1; }] *)
Definition last (s : OpenSCD) : Z := editCount s - 1.

(** [get canUndo() { return this.last >= 0; }] *)
Definition canUndo (s : OpenSCD) : bool := 0 <=? last s.

(** [get canRedo() { return this.editCount < this.history.length; }] *)
Definition canRedo (s : OpenSCD) : bool :=
  editCount s <? Z.of_nat (length (history s)).

(** *** The edit history *)

(** [updateVersion() { this.docVersion += 1; }] *)
Definition updateVersion (s : OpenSCD) : OpenSCD :=
  set_docVersion (docVersion s + 1) s.

(** [handleEdit(e)] run on the DOM of the state. *)
Definition runHandleEdit (e : EditV2) (s : OpenSCD) : EditV2 * OpenSCD :=
  let '(inverse, d) := handleEdit e (dom s) in (inverse, set_dom d s).

(** [handleEditEvent(event)] with [event.detail = e]. *)
Definition handleEditEvent (e : Edit) (s : OpenSCD) : OpenSCD :=
  let editV2 := convertEdit e in
  let s := set_history (Js.splice (history s) (editCount s)) s in
  let '(inverse, s) := runHandleEdit editV2 s in
  let s := set_history
             (Js.push (history s) (LogEntry.make inverse editV2 None)) s in
  let s := set_editCount (editCount s + 1) s in
  updateVersion s.

(** [squashUndo(undoEdits)] *)
Definition squashUndo (undoEdits : EditV2) (s : OpenSCD) : EditV2 :=
  match Js.lastOf (history s) with
  | None => undoEdits
  | Some lastHistory =>
      match LogEntry.undo lastHistory, undoEdits with
      | Complex lastUndo, Complex undoEdits' => Complex (undoEdits' ++ lastUndo)
      | Complex lastUndo, _ => Complex (undoEdits :: lastUndo)
      | lastUndo, Complex undoEdits' => Complex (undoEdits' ++ [lastUndo])
      | lastUndo, _ => Complex [undoEdits; lastUndo]
      end
  end.

(** [squashRedo(edits)] *)
Definition squashRedo (edits : EditV2) (s : OpenSCD) : EditV2 :=
  match Js.lastOf (history s) with
  | None => edits
  | Some lastHistory =>
      match LogEntry.redo lastHistory, edits with
      | Complex lastRedo, Complex edits' => Complex (lastRedo ++ edits')
      | Complex lastRedo, _ => Complex (lastRedo ++ [edits])
      | lastRedo, Complex edits' => Complex (lastRedo :: edits')
      | lastRedo, _ => Complex [lastRedo; edits]
      end
  end.

(** [this.history[this.history.length - 1]?.title] *)
Definition lastTitle (s : OpenSCD) : option string :=
  match Js.lastOf (history s) with
  | Some lastHistory => LogEntry.title lastHistory
  | None => None
  end.

(** [handleEditEventV2(event)] with [event.detail = d]. *)
Definition handleEditEventV2 (d : EditDetailV2) (s : OpenSCD) : OpenSCD :=
  let squash := Js.toBoolean (squash d) in
  let s := set_history (Js.splice (history s) (editCount s)) s in
  let '(inverse, s) := runHandleEdit (edit d) s in
  let undo := if squash then squashUndo inverse s else inverse in
  let redo := if squash then squashRedo (edit d) s else edit d in
  let logTitle := Js.or (title d) (lastTitle s) in
  let s := if squash then set_history (Js.pop (history s)) s else s in
  let s := set_history
             (Js.push (history s) (LogEntry.make undo redo logTitle)) s in
  let s := set_editCount (Z.of_nat (length (history s))) s in
  updateVersion s.

(** One step of [undo]: the stored undo edit of [entry] is applied, the
    cursor moves back and the version is bumped. *)
Definition undoStep (entry : LogEntry) (s : OpenSCD) : OpenSCD :=
  let '(_, s) := runHandleEdit (LogEntry.undo entry) s in
  updateVersion (set_editCount (editCount s - 1) s).

(** One step of [redo]. *)
Definition redoStep (entry : LogEntry) (s : OpenSCD) : OpenSCD :=
  let '(_, s) := runHandleEdit (LogEntry.redo entry) s in
  updateVersion (set_editCount (editCount s + 1) s).

(** [undo(n = 1)]. Reading [.undo] of a missing entry throws. *)
Equations? undo (n : Z) (s : OpenSCD) : Completion by wf (Z.to_nat n) lt :=
  undo n s with negb (canUndo s) || (n <? 1) => {
    | true := Normal s
    | false with Js.at_ (history s) (last s) => {
      | None := TypeError s
      | Some entry with Z_lt_dec 1 n => {
        | left _ := undo (n - 1) (undoStep entry s)
        | right _ := Normal (undoStep entry s) } } }.
Proof. lia. Qed.

(** [redo(n = 1)] *)
Equations? redo (n : Z) (s : OpenSCD) : Completion by wf (Z.to_nat n) lt :=
  redo n s with negb (canRedo s) || (n <? 1) => {
    | true := Normal s
    | false with Js.at_ (history s) (editCount s) => {
      | None := TypeError s
      | Some entry with Z_lt_dec 1 n => {
        | left _ := redo (n - 1) (redoStep entry s)
        | right _ := Normal (redoStep entry s) } } }.
Proof. lia. Qed.

(** *** The plugin registry *)

(** [pluginTag(uri)]: the memoised tag, computed and stored on the first
    call for [uri]. *)
Definition pluginTag (uri : string) (s : OpenSCD) : string * OpenSCD :=
  match pluginTags s !! uri with
  | Some tag => (tag, s)
  | None =>
      let tag := ("oscd-p" +:+ cyrb64 uri)%string in
      (tag, set_pluginTags (<[uri := tag]> (pluginTags s)) s)
  end.

(** [loadPlugin(plugin)]. The dynamic import is started and not awaited:
    it is recorded in [imports]. *)
Definition loadPlugin (plugin : Plugin) (s : OpenSCD) : Completion :=
  let '(tagName, s) := pluginTag (src plugin) s in
  if bool_decide (is_Some (loadedPlugins s !! tagName)) then Normal s else
  let s := set_loadedPlugins (<[tagName := plugin]> (loadedPlugins s)) s in
  if bool_decide (tagName ∈ customElements s) then Normal s else
  match resolveURL (src plugin) with
  | None => TypeError s
  | Some url => Normal (set_imports (imports s ++ [(url, tagName)]) s)
  end.

(** *** Sequences of calls *)

Definition stateOf (c : Completion) : OpenSCD :=
  match c with Normal s | TypeError s => s end.

(** The calls that touch the history. *)
Inductive Call : Type :=
| HandleEditEvent (e : Edit)
| HandleEditEventV2 (d : EditDetailV2)
| Undo (n : Z)
| Redo (n : Z).

Definition call (c : Call) (s : OpenSCD) : Completion :=
  match c with
  | HandleEditEvent e => Normal (handleEditEvent e s)
  | HandleEditEventV2 d => Normal (handleEditEventV2 d s)
  | Undo n => undo n s
  | Redo n => redo n s
  end.

(** The calls of [cs] in order, up to the first one that throws. *)
Fixpoint run (cs : list Call) (s : OpenSCD) : Completion :=
  match cs with
  | [] => Normal s
  | c :: cs =>
      match call c s with
      | Normal s' => run cs s'
      | TypeError s' => TypeError s'
      end
  end.

(** [pluginTag] called for each of [uris] in turn. *)
Definition pluginTagAll (uris : list string) (s : OpenSCD) : OpenSCD :=
  foldl (λ s uri, (pluginTag uri s).2) s uris.

(** *** Vocabulary of the properties *)

(** The cursor is within the history. *)
Definition cursorInRange (s : OpenSCD) : Prop :=
  0 ≤ editCount s ≤ Z.of_nat (length (history s)).

(** The edits an [EditV2] stands for, in order: the elements of an array,
    or the edit itself. *)
Definition editsOf (e : EditV2) : list EditV2 :=
  match e with
  | Complex edits => edits
  | _ => [e]
  end.

(** The DOM after [handleEdit] was called on each of [es] in turn. *)
Definition applyAll (es : list EditV2) (d : Dom) : Dom :=
  foldl (λ d e, (handleEdit e d).2) d es.

(** The entries below the cursor, newest first. *)
Definition applied (s : OpenSCD) : list LogEntry :=
  reverse (take (Z.to_nat (editCount s)) (history s)).

(** The entries from the cursor on, oldest first. *)
Definition redoable (s : OpenSCD) : list LogEntry :=
  drop (Z.to_nat (editCount s)) (history s).

(** The state after [m] steps of [undo] or [redo] that applied [es]. *)
Definition afterSteps (cursor : Z) (m : Z) (es : list EditV2)
    (s : OpenSCD) : OpenSCD :=
  set_dom (applyAll es (dom s))
    (set_docVersion (docVersion s + m) (set_editCount cursor s)).

(** The history as [handleEditEvent] and [handleEditEventV2] first cut it. *)
Definition cut (s : OpenSCD) : list LogEntry := Js.splice (history s) (editCount s).

(** The entry [handleEditEventV2] records when it does not squash. *)
Definition plainEntry (d : EditDetailV2) (s : OpenSCD) : LogEntry :=
  LogEntry.make (handleEdit (edit d) (dom s)).1 (edit d)
    (Js.or (title d) (from_option LogEntry.title None (list.last (cut s)))).

(** The entry [handleEditEventV2] records when it squashes into [prev]. *)
Definition squashedEntry (d : EditDetailV2) (prev : LogEntry)
    (s : OpenSCD) : LogEntry :=
  LogEntry.make
    (Complex (editsOf (handleEdit (edit d) (dom s)).1 ++ editsOf (LogEntry.undo prev)))
    (Complex (editsOf (LogEntry.redo prev) ++ editsOf (edit d)))
    (Js.or (title d) (LogEntry.title prev)).

End OpenSCD.

(** ** A platform to run the element on

    [handleEdit] keeps a journal of the edits it was given, in order, and
    answers with a formal inverse; an array is inverted element by
    element, in reverse order. *)
Module Journal.

Fixpoint invert (e : EditV2) : EditV2 :=
  match e with
  | Insert _ node _ => Remove node
  | Remove node => Insert 1%positive node None
  | SetAttributes element attributes => SetAttributes element attributes
  | Complex edits => Complex (rev (List.map invert edits))
  end.

#[export] Instance platform : Platform := {|
  Dom := list EditV2;
  Edit := EditV2;
  convertEdit := id;
  handleEdit := λ e journal, (invert e, journal ++ [e]);
  cyrb64 := λ uri, uri;
  resolveURL := λ src, Some src
|}.

(** A new element, nothing applied yet. *)
Definition fresh : OpenSCD := new_OpenSCD [] ∅ ∅.

Definition insertX : EditV2 := Insert 1%positive 2%positive None.
Definition removeY : EditV2 := Remove 3%positive.
Definition renameZ : EditV2 :=
  SetAttributes 4%positive [("name", Some "Z")]%string.

(** Two entries recorded, both applied: the second one through the legacy
    event. *)
Definition twoEdits : OpenSCD :=
  handleEditEvent removeY
    (handleEditEventV2 (mkEditDetailV2 insertX (Some "add X"%string) None)
       fresh).

(** The same after one [undo()]: one entry applied, one to redo. *)
Definition midway : OpenSCD := stateOf (undo 1 twoEdits).

(** One titled entry recorded and applied. *)
Definition oneTitled : OpenSCD :=
  handleEditEventV2 (mkEditDetailV2 insertX (Some "add X"%string) None)
    fresh.

(** An element whose [docName] was set to a name that was never opened. *)
Definition unknownDoc : OpenSCD :=
  mkOpenSCD [] 0 0 {[ "B.scd"%string := 7%positive ]} "A.scd" ∅ [] [] []
    ∅ ∅ [].

(** No document at all, and a [docName] every object knows. *)
Definition inheritedDoc : OpenSCD :=
  mkOpenSCD [] 0 0 ∅ "toString" ∅ [] [] [] ∅ ∅ [].

(** Two plugins that share their module. *)
Definition pluginA : Plugin :=
  mkPlugin "Editor" None "./plugins/editor.js" "edit" None (Some true).
Definition pluginB : Plugin :=
  mkPlugin "Editor (bis)" None "./plugins/editor.js" "edit" (Some true) None.

End Journal.

(** ** The rest of the element

    The plugin configuration ([unloadPlugin], [onConfigurePlugin], the
    [plugins] setter), [handleOpenDoc], the [editors] and [editor]
    getters, the wizard workflow and the hot keys. *)

(** More of [Array.prototype]. *)
Module JsArray.

(** [arr.indexOf(x)]: the first index that holds [x], or -1. *)
Definition indexOf {A} `{EqDecision A} (arr : list A) (x : A) : Z :=
  match list_find (λ y, y = x) arr with
  | Some (i, _) => Z.of_nat i
  | None => -1
  end.

(** [arr.splice(start, deleteCount)]: what is left of the array. The
    count is clamped to what lies between the start index and the end. *)
Definition spliceCount {A} (arr : list A) (start deleteCount : Z) : list A :=
  let len := Z.of_nat (length arr) in
  let from := Js.actualStart len start in
  let count := Z.min (Z.max deleteCount 0) (len - from) in
  take (Z.to_nat from) arr ++ drop (Z.to_nat (from + count)) arr.

(** [arr.unshift(x)] *)
Definition unshift {A} (arr : list A) (x : A) : list A := x :: arr.

End JsArray.

(** ['menu' | 'editor'] *)
Module Kind.
Inductive t : Type := menu | editor.
End Kind.

#[global] Instance Kind_eq_dec : EqDecision Kind.t.
Proof. solve_decision. Defined.

(** [ConfigurePluginDetail] of [foundation/plugin-event.ts]. *)
Module ConfigurePluginDetail.
Record t : Type := make {
  name : string;
  kind : Kind.t;
  config : option Plugin
}.
End ConfigurePluginDetail.

(** [newConfigurePluginEvent(name, kind, config)]: the detail of the event
    it builds. *)
Definition newConfigurePluginEvent (name : string) (kind : Kind.t)
    (config : option Plugin) : ConfigurePluginDetail.t :=
  ConfigurePluginDetail.make name kind config.

(** A [Partial<PluginSet>]: the kinds the object has, in the order of its
    keys, each with its array or with [undefined]. An object has a key
    once. *)
Definition PartialPluginSet : Type := list (Kind.t * option (list Plugin)).

(** A wizard request, an object: its identity and its [subWizard] flag. *)
Record WizardRequest : Type := mkWizardRequest {
  wizardObject : positive;
  subWizard : option bool
}.

#[global] Instance WizardRequest_eq_dec : EqDecision WizardRequest.
Proof. solve_decision. Defined.

(** The keys of the [controls] record. *)
Inductive Control : Type := UndoControl | RedoControl | LogControl | MenuControl.

(** The [hotkeys] record: its own keys and the control whose action each
    one holds. *)
Definition hotkeys (key : string) : option Control :=
  if String.eqb key "m" then Some MenuControl
  else if String.eqb key "z" then Some UndoControl
  else if String.eqb key "y" then Some RedoControl
  else if String.eqb key "Z" then Some RedoControl
  else if String.eqb key "l" then Some LogControl
  else None.

(** [RenderedPlugin]: [getName] takes the locale it reads, [isDisabled]
    the [docName] it reads. *)
Module RenderedPlugin.
Record t : Type := make {
  icon : string;
  getName : string → string;
  isDisabled : string → bool;
  tagName : string
}.
End RenderedPlugin.

Section Element.
Context `{Platform}.

Definition set_docs (m : gmap string Node) (s : OpenSCD) : OpenSCD :=
  mkOpenSCD (history s) (docVersion s) (editCount s) m (docName s)
    (loadedPlugins s) (plugins_menu s) (plugins_editor s) (dom s)
    (pluginTags s) (customElements s) (imports s).

Definition set_docName (n : string) (s : OpenSCD) : OpenSCD :=
  mkOpenSCD (history s) (docVersion s) (editCount s) (docs s) n
    (loadedPlugins s) (plugins_menu s) (plugins_editor s) (dom s)
    (pluginTags s) (customElements s) (imports s).

Definition set_plugins_menu (l : list Plugin) (s : OpenSCD) : OpenSCD :=
  mkOpenSCD (history s) (docVersion s) (editCount s) (docs s) (docName s)
    (loadedPlugins s) l (plugins_editor s) (dom s)
    (pluginTags s) (customElements s) (imports s).

Definition set_plugins_editor (l : list Plugin) (s : OpenSCD) : OpenSCD :=
  mkOpenSCD (history s) (docVersion s) (editCount s) (docs s) (docName s)
    (loadedPlugins s) (plugins_menu s) l (dom s)
    (pluginTags s) (customElements s) (imports s).

(** [this.#plugins[kind]] *)
Definition pluginsOf (kind : Kind.t) (s : OpenSCD) : list Plugin :=
  match kind with
  | Kind.menu => plugins_menu s
  | Kind.editor => plugins_editor s
  end.

Definition set_pluginsOf (kind : Kind.t) (l : list Plugin)
    (s : OpenSCD) : OpenSCD :=
  match kind with
  | Kind.menu => set_plugins_menu l s
  | Kind.editor => set_plugins_editor l s
  end.

(** *** Plugin configuration *)

(** [unloadPlugin(name, kind)], [name] being [pluginName] here. [find] answers with the first plugin of
    that name, and [indexOf] with the place it was found at. *)
Definition unloadPlugin (pluginName : string) (kind : Kind.t)
    (s : OpenSCD) : OpenSCD :=
  match list_find (λ plug, name plug = pluginName) (pluginsOf kind s) with
  | None => s
  | Some (index, plugin) =>
      let s := set_pluginsOf kind
                 (JsArray.spliceCount (pluginsOf kind s) (Z.of_nat index) 1) s in
      let '(tagName, s) := pluginTag (src plugin) s in
      set_loadedPlugins (delete tagName (loadedPlugins s)) s
  end.

(** [onConfigurePlugin(evt)] with [evt.detail = detail]. *)
Definition onConfigurePlugin (detail : ConfigurePluginDetail.t)
    (s : OpenSCD) : Completion :=
  match ConfigurePluginDetail.config detail with
  | None =>
      Normal (unloadPlugin (ConfigurePluginDetail.name detail)
                (ConfigurePluginDetail.kind detail) s)
  | Some config =>
      match loadPlugin config s with
      | Normal s =>
          let kind := ConfigurePluginDetail.kind detail in
          Normal (set_pluginsOf kind (Js.push (pluginsOf kind s) config) s)
      | TypeError s => TypeError s
      end
  end.

(** [kind.forEach(plugin => this.loadPlugin(plugin))] *)
Fixpoint loadEach (kind : list Plugin) (s : OpenSCD) : Completion :=
  match kind with
  | [] => Normal s
  | plugin :: kind =>
      match loadPlugin plugin s with
      | Normal s => loadEach kind s
      | TypeError s => TypeError s
      end
  end.

(** [Object.values(plugins).forEach(kind => kind.forEach(...))]; calling
    [forEach] on [undefined] throws. *)
Fixpoint loadValues (values : list (option (list Plugin)))
    (s : OpenSCD) : Completion :=
  match values with
  | [] => Normal s
  | None :: _ => TypeError s
  | Some kind :: values =>
      match loadEach kind s with
      | Normal s => loadValues values s
      | TypeError s => TypeError s
      end
  end.

(** The array [{ menu: [], editor: [], ...plugins }] has under [kind].
    (An [undefined] value has thrown before the spread is reached.) *)
Definition spreadOver (kind : Kind.t) (plugins : PartialPluginSet) : list Plugin :=
  match list_find (λ kv, kv.1 = kind) plugins with
  | Some (_, (_, Some l)) => l
  | _ => []
  end.

(** [set plugins(plugins)] *)
Definition set_plugins (plugins : PartialPluginSet) (s : OpenSCD) : Completion :=
  match loadValues (snd <$> plugins) s with
  | Normal s =>
      Normal (set_plugins_editor (spreadOver Kind.editor plugins)
                (set_plugins_menu (spreadOver Kind.menu plugins) s))
  | TypeError s => TypeError s
  end.

(** *** Documents *)

(** [handleOpenDoc({ detail: { docName, doc } })]. Assigning to
    ["__proto__"] stores no property: it replaces the prototype of [docs],
    and no state of this model stands for such an object ([None]). *)
Definition handleOpenDoc (name : string) (document : Node)
    (s : OpenSCD) : option OpenSCD :=
  let s := set_docName name s in
  if String.eqb (docName s) "__proto__" then None
  else Some (set_docs (<[docName s := document]> (docs s)) s).

(** *** Rendered plugins *)

(** [plugin.translations?.[locale] || plugin.name] *)
Definition translatedName (plugin : Plugin) (locale : string) : string :=
  let translation :=
    match translations plugin with
    | Some table => snd <$> list_find (λ kv, kv.1 = locale) table
    | None => None
    end in
  match Js.or (snd <$> translation) (Some (name plugin)) with
  | Some n => n
  | None => name plugin
  end.

(** [(plugin.requireDoc && !this.docName) ?? false] *)
Definition requiresMissingDoc (plugin : Plugin) (docName : string) : bool :=
  match requireDoc plugin with
  | Some true => negb (Js.truthy (Some docName))
  | Some false | None => false
  end.

(** The callback of [map] in [editors]: [undefined] for a plugin that is
    not active. *)
Definition renderPlugin (plugin : Plugin) (s : OpenSCD)
    : option RenderedPlugin.t * OpenSCD :=
  match active plugin with
  | Some true =>
      let '(tag, s) := pluginTag (src plugin) s in
      (Some (RenderedPlugin.make (icon plugin) (translatedName plugin)
               (requiresMissingDoc plugin) tag), s)
  | Some false | None => (None, s)
  end.

(** [plugins.map(...)]: the callback on each plugin in turn. *)
Fixpoint renderEach (plugins : list Plugin) (s : OpenSCD)
    : list (option RenderedPlugin.t) * OpenSCD :=
  match plugins with
  | [] => ([], s)
  | plugin :: plugins =>
      let '(r, s) := renderPlugin plugin s in
      let '(rs, s) := renderEach plugins s in
      (r :: rs, s)
  end.

(** [get editors()] *)
Definition editors (s : OpenSCD) : list RenderedPlugin.t * OpenSCD :=
  let '(rs, s) := renderEach (plugins_editor s) s in
  (omap id rs, s).

(** *** The UI fields *)

(** The element with the fields the history and the registry do not
    involve. *)
Record Shell : Type := mkShell {
  element : OpenSCD;
  editorIndex : Z;
  workflow : list WizardRequest
}.

Definition new_Shell (d : Dom) (tags : gmap string string)
    (defined : gset string) : Shell :=
  mkShell (new_OpenSCD d tags defined) 0 [].

(** [get editor()] *)
Definition editor (sh : Shell) : string * Shell :=
  let '(rendered, s) := editors (element sh) in
  let sh := mkShell s (editorIndex sh) (workflow sh) in
  let enabledEditors :=
    base.filter (λ e, RenderedPlugin.isDisabled e (docName s) = false)
      rendered in
  if bool_decide (length enabledEditors = 0%nat) then (EmptyString, sh)
  else
    match Js.at_ enabledEditors (editorIndex sh) with
    | Some e => (RenderedPlugin.tagName e, sh)
    | None => (EmptyString, sh)
    end.

(** [closeWizard(we)] with [we.detail = wizard]. *)
Definition closeWizard (wizard : WizardRequest) (sh : Shell) : Shell :=
  mkShell (element sh) (editorIndex sh)
    (JsArray.spliceCount (workflow sh)
       (JsArray.indexOf (workflow sh) wizard) 1).

(** [onWizard(we)] with [we.detail = wizard]. *)
Definition onWizard (wizard : WizardRequest) (sh : Shell) : Shell :=
  mkShell (element sh) (editorIndex sh)
    (match subWizard wizard with
     | Some true => JsArray.unshift (workflow sh) wizard
     | Some false | None => Js.push (workflow sh) wizard
     end).

(** *** Hot keys *)

(** The action of a control, on the element: [undo()] and [redo()]; the
    log and menu actions act on the dialog and the drawer only, and leave
    the fields of the element as they are. *)
Definition controlAction (c : Control) (s : OpenSCD) : Completion :=
  match c with
  | UndoControl => undo 1 s
  | RedoControl => redo 1 s
  | LogControl | MenuControl => Normal s
  end.

(** [isDisabled()] of a control: [!this.canUndo], [!this.canRedo], and
    [false] for the log and the menu. *)
Definition controlDisabled (c : Control) (s : OpenSCD) : bool :=
  match c with
  | UndoControl => negb (canUndo s)
  | RedoControl => negb (canRedo s)
  | LogControl | MenuControl => false
  end.

(** [handleKeyPress(e)]: how the call ends, and whether it reached
    [e.preventDefault()]. *)
Definition handleKeyPress (ctrlKey : bool) (key : string)
    (s : OpenSCD) : Completion * bool :=
  if negb ctrlKey then (Normal s, false) else
  match hotkeys key with
  | None => (Normal s, false)
  | Some control =>
      match controlAction control s with
      | Normal s => (Normal s, true)
      | TypeError s => (TypeError s, false)
      end
  end.

(** *** Everything the element is sent *)

(** The events the constructor listens to, and the calls of the public
    methods. *)
Inductive Step : Type :=
| KeyDown (ctrlKey : bool) (key : string)
| OscdOpen (docName : string) (doc : Node)
| OscdEdit (e : Edit)
| OscdEditV2 (d : EditDetailV2)
| OscdWizardRequest (wizard : WizardRequest)
| OscdCloseWizard (wizard : WizardRequest)
| OscdConfigurePlugin (detail : ConfigurePluginDetail.t)
| CallUndo (n : Z)
| CallRedo (n : Z)
| CallLoadPlugin (plugin : Plugin)
| CallUnloadPlugin (name : string) (kind : Kind.t)
| SetPlugins (plugins : PartialPluginSet)
| GetEditor.

Definition onElement (f : OpenSCD → OpenSCD) (sh : Shell) : Shell :=
  mkShell (f (element sh)) (editorIndex sh) (workflow sh).

(** One step. A step that throws leaves the element as it was when the
    error was thrown, and the next step starts from there. *)
Definition step (st : Step) (sh : Shell) : option Shell :=
  match st with
  | KeyDown ctrlKey key =>
      Some (onElement (λ s, stateOf (handleKeyPress ctrlKey key s).1) sh)
  | OscdOpen name document =>
      match handleOpenDoc name document (element sh) with
      | Some s => Some (onElement (λ _, s) sh)
      | None => None
      end
  | OscdEdit e => Some (onElement (handleEditEvent e) sh)
  | OscdEditV2 d => Some (onElement (handleEditEventV2 d) sh)
  | OscdWizardRequest wizard => Some (onWizard wizard sh)
  | OscdCloseWizard wizard => Some (closeWizard wizard sh)
  | OscdConfigurePlugin detail =>
      Some (onElement (λ s, stateOf (onConfigurePlugin detail s)) sh)
  | CallUndo n => Some (onElement (λ s, stateOf (undo n s)) sh)
  | CallRedo n => Some (onElement (λ s, stateOf (redo n s)) sh)
  | CallLoadPlugin plugin =>
      Some (onElement (λ s, stateOf (loadPlugin plugin s)) sh)
  | CallUnloadPlugin name kind => Some (onElement (unloadPlugin name kind) sh)
  | SetPlugins plugins =>
      Some (onElement (λ s, stateOf (set_plugins plugins s)) sh)
  | GetEditor => Some (editor sh).2
  end.

Fixpoint steps (sts : list Step) (sh : Shell) : option Shell :=
  match sts with
  | [] => Some sh
  | st :: sts =>
      match step st sh with
      | Some sh => steps sts sh
      | None => None
      end
  end.

(** The step assigns to ["__proto__"] of [docs]. *)
Definition opensProto (st : Step) : bool :=
  match st with
  | OscdOpen name _ => String.eqb name "__proto__"
  | _ => false
  end.

(** *** Vocabulary of the properties *)

(** Every entry of [loadedPlugins] sits under the tag memoised for the
    [src] of its plugin. *)
Definition registryOk (s : OpenSCD) : Prop :=
  ∀ tag plugin,
    loadedPlugins s !! tag = Some plugin →
    pluginTags s !! src plugin = Some tag.

(** What [handleOpenDoc] leaves when the name is not ["__proto__"]. *)
Definition opened (name : string) (document : Node) (s : OpenSCD) : OpenSCD :=
  set_docs (<[name := document]> (docs s)) (set_docName name s).

(** How a call ends on the state with the document opened. *)
Definition openedIn (name : string) (document : Node) (c : Completion)
    : Completion :=
  match c with
  | Normal s => Normal (opened name document s)
  | TypeError s => TypeError (opened name document s)
  end.

(** The plugin is loaded in [s]: the tag of its [src] is memoised and
    holds an entry of [loadedPlugins]. *)
Definition loadedIn (p : Plugin) (s : OpenSCD) : Prop :=
  ∃ tag, pluginTags s !! src p = Some tag ∧ is_Some (loadedPlugins s !! tag).

(** [s'] has the history, cursor, version, DOM and documents of [s]. *)
Definition editingKept (s s' : OpenSCD) : Prop :=
  history s' = history s ∧ editCount s' = editCount s
  ∧ docVersion s' = docVersion s ∧ dom s' = dom s
  ∧ docs s' = docs s ∧ docName s' = docName s.

(** [s'] has the plugin lists, the loaded plugins, the tag memo, the
    element registry and the imports of [s]. *)
Definition registryKept (s s' : OpenSCD) : Prop :=
  plugins_menu s' = plugins_menu s ∧ plugins_editor s' = plugins_editor s
  ∧ loadedPlugins s' = loadedPlugins s ∧ pluginTags s' = pluginTags s
  ∧ customElements s' = customElements s ∧ imports s' = imports s.

(** The two invariants of the element. *)
Definition wellFormed (sh : Shell) : Prop :=
  cursorInRange (element sh) ∧ registryOk (element sh).

(** The inverse edits [handleEdit] answers with when it is called on each
    of [es] in turn, in that order. *)
Fixpoint inverses (es : list EditV2) (d : Dom) : list EditV2 :=
  match es with
  | [] => []
  | e :: es => (handleEdit e d).1 :: inverses es (handleEdit e d).2
  end.

(** [handleEditEventV2] for [first] without squash, then for each of
    [more] with [squash = true]; no call has a title. *)
Definition squashAll (first : EditV2) (more : list EditV2)
    (s : OpenSCD) : OpenSCD :=
  foldl (λ s e, handleEditEventV2 (mkEditDetailV2 e None (Some true)) s)
    (handleEditEventV2 (mkEditDetailV2 first None None) s) more.

End Element.

(** ** Scenes for the rest of the element *)
Module Scenes.

(** The [Journal] platform with a [URL] constructor that refuses the
    string ["http://"] (a scheme without a host). *)
Definition strict : Platform := {|
  Dom := list EditV2;
  Edit := EditV2;
  convertEdit := id;
  handleEdit := λ e journal, (Journal.invert e, journal ++ [e]);
  cyrb64 := λ uri, uri;
  resolveURL := λ src, if String.eqb src "http://" then None else Some src
|}.

(** A new element on the [strict] platform. *)
Definition strictFresh : @OpenSCD strict := @new_OpenSCD strict [] ∅ ∅.

Definition brokenPlugin : Plugin :=
  mkPlugin "Broken" None "http://" "warning" None (Some true).

(** Two entries, and a cursor set from outside: beyond the end, below 0. *)
Definition beyond : OpenSCD := set_editCount 3 Journal.twoEdits.
Definition below : OpenSCD := set_editCount (-1) Journal.twoEdits.

(** Both plugins of [Journal] as editors, through the [plugins] setter. *)
Definition twoEditors : PartialPluginSet :=
  [(Kind.editor, Some [Journal.pluginA; Journal.pluginB]); (Kind.menu, Some [])].
Definition configured : OpenSCD :=
  stateOf (set_plugins twoEditors Journal.fresh).

Definition wizardA : WizardRequest := mkWizardRequest 1 None.
Definition wizardB : WizardRequest := mkWizardRequest 2 (Some true).
Definition wizardC : WizardRequest := mkWizardRequest 3 (Some false).

(** A new element with two wizards waiting. *)
Definition twoWizards : Shell :=
  mkShell Journal.fresh 0 [wizardA; wizardB].

(** A session: an edit, Ctrl+z, a plugin, a read of [editor], a document,
    Ctrl+y, a wizard. *)
Definition session : list (@Step Journal.platform) :=
  [ OscdEdit (H:=Journal.platform) Journal.insertX;
    KeyDown true "z";
    OscdConfigurePlugin
      (newConfigurePluginEvent "Editor" Kind.editor (Some Journal.pluginA));
    GetEditor;
    OscdOpen "A.scd" 7%positive;
    KeyDown true "y";
    OscdWizardRequest wizardA ].

End Scenes.


(** * Properties *)

(** ** Arrays *)
Section Arrays.
Context {A : Type}.
Implicit Types (arr : list A) (x : A) (i : Z).

Lemma actualStart_id len start :
  0 ≤ start ≤ len → Js.actualStart len start = start.
Proof. unfold Js.actualStart. destruct (Z.ltb_spec start 0); lia. Qed.

Lemma splice_take arr i :
  0 ≤ i ≤ Z.of_nat (length arr) → Js.splice arr i = take (Z.to_nat i) arr.
Proof. intros Hi. unfold Js.splice. by rewrite actualStart_id. Qed.

Lemma splice_zero arr : Js.splice arr 0 = [].
Proof. rewrite splice_take; [done | lia]. Qed.

Lemma splice_length arr i :
  0 ≤ i ≤ Z.of_nat (length arr) → Z.of_nat (length (Js.splice arr i)) = i.
Proof. intros Hi. rewrite splice_take, length_take by done. lia. Qed.

Lemma lastOf_last arr : Js.lastOf arr = list.last arr.
Proof.
  unfold Js.lastOf, Js.at_. rewrite last_lookup.
  destruct arr as [|x arr]; [done|].
  destruct (Z.ltb_spec (Z.of_nat (length (x :: arr)) - 1) 0) as [Hlt|_].
  - simpl in Hlt. lia.
  - f_equal. simpl. lia.
Qed.

Lemma pop_push arr x : Js.pop (Js.push arr x) = arr.
Proof. apply removelast_last. Qed.

Lemma at_lookup arr i : 0 ≤ i → Js.at_ arr i = arr !! Z.to_nat i.
Proof. intros Hi. unfold Js.at_. by destruct (Z.ltb_spec i 0); [lia|]. Qed.

End Arrays.

(** ** Editing *)
Section Properties.
Context `{Platform}.
Implicit Types (s : OpenSCD) (d : EditDetailV2) (entry : LogEntry).

Lemma squashUndo_editsOf undoEdits (prev : LogEntry) s :
  Js.lastOf (history s) = Some prev →
  squashUndo undoEdits s = Complex (editsOf undoEdits ++ editsOf (LogEntry.undo prev)).
Proof.
  intros Hlast. unfold squashUndo. rewrite Hlast.
  by destruct (LogEntry.undo prev), undoEdits.
Qed.

Lemma squashRedo_editsOf edits (prev : LogEntry) s :
  Js.lastOf (history s) = Some prev →
  squashRedo edits s = Complex (editsOf (LogEntry.redo prev) ++ editsOf edits).
Proof.
  intros Hlast. unfold squashRedo. rewrite Hlast.
  by destruct (LogEntry.redo prev), edits.
Qed.

Lemma handleEditEvent_eq (e : Edit) s :
  handleEditEvent e s =
    mkOpenSCD
      (cut s ++ [LogEntry.make (handleEdit (convertEdit e) (dom s)).1 (convertEdit e) None])
      (docVersion s + 1) (editCount s + 1) (docs s) (docName s)
      (loadedPlugins s) (plugins_menu s) (plugins_editor s)
      (handleEdit (convertEdit e) (dom s)).2
      (pluginTags s) (customElements s) (imports s).
Proof.
  unfold handleEditEvent, runHandleEdit, cut. simpl.
  by destruct (handleEdit (convertEdit e) (dom s)).
Qed.

(** What [handleEditEventV2] leaves, by cases on the flag and on the cut
    history. *)
Lemma handleEditEventV2_eq d s :
  handleEditEventV2 d s =
    let h :=
      if Js.toBoolean (squash d) then
        match list.last (cut s) with
        | Some prev => Js.pop (cut s) ++ [squashedEntry d prev s]
        | None => [plainEntry d s]
        end
      else cut s ++ [plainEntry d s] in
    mkOpenSCD h (docVersion s + 1) (Z.of_nat (length h)) (docs s) (docName s)
      (loadedPlugins s) (plugins_menu s) (plugins_editor s)
      (handleEdit (edit d) (dom s)).2
      (pluginTags s) (customElements s) (imports s).
Proof.
  unfold handleEditEventV2, runHandleEdit, plainEntry, squashedEntry, lastTitle.
  fold (cut s). simpl.
  destruct (handleEdit (edit d) (dom s)) as [inverse dom'] eqn:Hedit. simpl.
  destruct (Js.toBoolean (squash d)); simpl.
  - rewrite <- lastOf_last.
    destruct (Js.lastOf (cut s)) as [prev|] eqn:Hlast.
    + erewrite squashUndo_editsOf, squashRedo_editsOf by exact Hlast. done.
    + unfold squashUndo, squashRedo, lastTitle. simpl. rewrite Hlast.
      rewrite lastOf_last in Hlast. apply last_None in Hlast.
      rewrite Hlast. done.
  - rewrite <- lastOf_last. done.
Qed.


(** ** Stepping through the history *)

Lemma undo_body n s :
  undo n s =
    if negb (canUndo s) || (n <? 1) then Normal s else
    match Js.at_ (history s) (last s) with
    | None => TypeError s
    | Some entry =>
        if decide (1 < n) then undo (n - 1) (undoStep entry s)
        else Normal (undoStep entry s)
    end.
Proof.
  simp undo.
  destruct (negb (canUndo s) || (n <? 1)); simpl; [done|].
  destruct (Js.at_ (history s) (last s)); simpl; [|done].
  destruct (Z_lt_dec 1 n); simpl; case_decide; done || lia.
Qed.

Lemma redo_body n s :
  redo n s =
    if negb (canRedo s) || (n <? 1) then Normal s else
    match Js.at_ (history s) (editCount s) with
    | None => TypeError s
    | Some entry =>
        if decide (1 < n) then redo (n - 1) (redoStep entry s)
        else Normal (redoStep entry s)
    end.
Proof.
  simp redo.
  destruct (negb (canRedo s) || (n <? 1)); simpl; [done|].
  destruct (Js.at_ (history s) (editCount s)); simpl; [|done].
  destruct (Z_lt_dec 1 n); simpl; case_decide; done || lia.
Qed.

Lemma canUndo_false s : editCount s ≤ 0 → canUndo s = false.
Proof. unfold canUndo, last. intros. apply Z.leb_gt. lia. Qed.

Lemma canUndo_true s : 0 < editCount s → canUndo s = true.
Proof. unfold canUndo, last. intros. apply Z.leb_le. lia. Qed.

Lemma canRedo_false s :
  Z.of_nat (length (history s)) ≤ editCount s → canRedo s = false.
Proof. unfold canRedo. intros. apply Z.ltb_ge. lia. Qed.

Lemma canRedo_true s :
  editCount s < Z.of_nat (length (history s)) → canRedo s = true.
Proof. unfold canRedo. intros. apply Z.ltb_lt. lia. Qed.

Lemma undo_exhausted n s : editCount s ≤ 0 ∨ n < 1 → undo n s = Normal s.
Proof.
  intros Hstop. rewrite undo_body.
  destruct Hstop as [Hc|Hn].
  - by rewrite canUndo_false.
  - apply Z.ltb_lt in Hn. rewrite Hn. by rewrite orb_true_r.
Qed.

Lemma redo_exhausted n s :
  Z.of_nat (length (history s)) ≤ editCount s ∨ n < 1 → redo n s = Normal s.
Proof.
  intros Hstop. rewrite redo_body.
  destruct Hstop as [Hc|Hn].
  - by rewrite canRedo_false.
  - apply Z.ltb_lt in Hn. rewrite Hn. by rewrite orb_true_r.
Qed.

(** [afterSteps] composes, and zero steps change nothing. *)
Lemma afterSteps_none s : afterSteps (editCount s) 0 [] s = s.
Proof.
  destruct s. unfold afterSteps, set_dom, set_docVersion, set_editCount.
  simpl. f_equal. lia.
Qed.

Lemma afterSteps_eq c m es s :
  afterSteps c m es s =
    mkOpenSCD (history s) (docVersion s + m) c (docs s) (docName s)
      (loadedPlugins s) (plugins_menu s) (plugins_editor s)
      (applyAll es (dom s)) (pluginTags s) (customElements s) (imports s).
Proof. reflexivity. Qed.

Lemma afterSteps_more c1 m1 es1 c2 m2 es2 s :
  afterSteps c2 m2 es2 (afterSteps c1 m1 es1 s)
  = afterSteps c2 (m1 + m2) (es1 ++ es2) s.
Proof.
  rewrite !afterSteps_eq. cbn [history docVersion editCount docs docName
    loadedPlugins plugins_menu plugins_editor dom pluginTags customElements
    imports].
  unfold applyAll. rewrite foldl_app, Z.add_assoc. reflexivity.
Qed.

Lemma undoStep_afterSteps entry s :
  undoStep entry s = afterSteps (editCount s - 1) 1 [LogEntry.undo entry] s.
Proof.
  unfold undoStep, runHandleEdit, afterSteps, applyAll. simpl.
  by destruct (handleEdit (LogEntry.undo entry) (dom s)).
Qed.

Lemma redoStep_afterSteps entry s :
  redoStep entry s = afterSteps (editCount s + 1) 1 [LogEntry.redo entry] s.
Proof.
  unfold redoStep, runHandleEdit, afterSteps, applyAll. simpl.
  by destruct (handleEdit (LogEntry.redo entry) (dom s)).
Qed.

(** The newest applied entry is the one [undo] reads. *)
Lemma applied_cons s entry :
  0 < editCount s →
  history s !! Z.to_nat (last s) = Some entry →
  applied s
  = entry :: reverse (take (Z.to_nat (editCount s - 1)) (history s)).
Proof.
  unfold applied, last. intros Hc Hentry.
  replace (Z.to_nat (editCount s)) with (S (Z.to_nat (editCount s - 1))) by lia.
  erewrite take_S_r by exact Hentry. apply reverse_snoc.
Qed.

(** The oldest undone entry is the one [redo] reads. *)
Lemma redoable_cons s entry :
  history s !! Z.to_nat (editCount s) = Some entry →
  redoable s = entry :: drop (S (Z.to_nat (editCount s))) (history s).
Proof. unfold redoable. intros Hentry. by apply drop_S. Qed.

(** [undo n] takes [k] steps when [k] is the smaller of [n] and the
    cursor; by induction on the number of steps. *)
Lemma undo_steps (k : nat) : ∀ n s,
  cursorInRange s → 1 ≤ n → Z.of_nat k = Z.min n (editCount s) →
  undo n s =
    Normal (afterSteps (editCount s - Z.of_nat k) (Z.of_nat k)
              (LogEntry.undo <$> take k (applied s)) s).
Proof.
  induction k as [|k IH]; intros n s [Hlo Hhi] Hn Hk.
  - rewrite undo_exhausted by lia. simpl. rewrite Z.sub_0_r.
    by rewrite afterSteps_none.
  - assert (0 < editCount s) as Hpos by lia.
    destruct (lookup_lt_is_Some_2 (history s) (Z.to_nat (last s)))
      as [entry Hentry]; [unfold last; lia|].
    rewrite undo_body, canUndo_true by done.
    destruct (Z.ltb_spec n 1) as [?|_]; [lia|]. simpl.
    rewrite at_lookup by (unfold last; lia). rewrite Hentry.
    rewrite (applied_cons s entry) by done.
    rewrite undoStep_afterSteps. case_decide as Hmore.
    + rewrite (IH (n - 1)); cycle 1.
      { split; simpl; lia. } { lia. } { simpl. lia. }
      rewrite afterSteps_more. unfold applied. simpl.
      f_equal. f_equal; lia.
    + by assert (k = 0)%nat as -> by lia.
Qed.

Lemma redo_steps (k : nat) : ∀ n s,
  cursorInRange s → 1 ≤ n →
  Z.of_nat k = Z.min n (Z.of_nat (length (history s)) - editCount s) →
  redo n s =
    Normal (afterSteps (editCount s + Z.of_nat k) (Z.of_nat k)
              (LogEntry.redo <$> take k (redoable s)) s).
Proof.
  induction k as [|k IH]; intros n s [Hlo Hhi] Hn Hk.
  - rewrite redo_exhausted by lia. simpl. rewrite Z.add_0_r.
    by rewrite afterSteps_none.
  - destruct (lookup_lt_is_Some_2 (history s) (Z.to_nat (editCount s)))
      as [entry Hentry]; [lia|].
    rewrite redo_body, canRedo_true by lia.
    destruct (Z.ltb_spec n 1) as [?|_]; [lia|]. simpl.
    rewrite at_lookup by lia. rewrite Hentry.
    rewrite (redoable_cons s entry) by done.
    rewrite redoStep_afterSteps. case_decide as Hmore.
    + rewrite (IH (n - 1)); cycle 1.
      { split; simpl; lia. } { lia. } { simpl. lia. }
      rewrite afterSteps_more. unfold redoable. simpl.
      replace (Z.to_nat (editCount s + 1)) with (S (Z.to_nat (editCount s))) by lia.
      f_equal. f_equal; lia.
    + by assert (k = 0)%nat as -> by lia.
Qed.

Lemma applied_length s :
  cursorInRange s → Z.of_nat (length (applied s)) = editCount s.
Proof.
  intros [??]. unfold applied. rewrite length_reverse, length_take. lia.
Qed.

Lemma redoable_length s :
  cursorInRange s →
  Z.of_nat (length (redoable s)) = Z.of_nat (length (history s)) - editCount s.
Proof. intros [??]. unfold redoable. rewrite length_drop. lia. Qed.

(** Both always complete inside the range. *)
Lemma undo_inRange n s :
  cursorInRange s → ∃ s', undo n s = Normal s' ∧ cursorInRange s'
    ∧ history s' = history s ∧ editCount s' ≤ editCount s.
Proof.
  intros Hs. destruct (Z.lt_ge_cases n 1) as [Hn|Hn].
  - exists s. rewrite undo_exhausted by lia. repeat split; try apply Hs; lia.
  - eexists. rewrite (undo_steps (Z.to_nat (Z.min n (editCount s))));
      [split; [done|] | done | done | destruct Hs; lia].
    destruct Hs. unfold cursorInRange. simpl. repeat split; try lia.
Qed.

Lemma redo_inRange n s :
  cursorInRange s → ∃ s', redo n s = Normal s' ∧ cursorInRange s'
    ∧ history s' = history s.
Proof.
  intros Hs. destruct (Z.lt_ge_cases n 1) as [Hn|Hn].
  - exists s. rewrite redo_exhausted by lia. repeat split; apply Hs.
  - eexists. rewrite (redo_steps (Z.to_nat
      (Z.min n (Z.of_nat (length (history s)) - editCount s))));
      [split; [done|] | done | done | destruct Hs; lia].
    destruct Hs. unfold cursorInRange. simpl. repeat split; try lia.
Qed.

Lemma handleEditEvent_inRange (e : Edit) s :
  cursorInRange s → cursorInRange (handleEditEvent e s).
Proof.
  intros Hs. rewrite handleEditEvent_eq. unfold cursorInRange, cut. simpl.
  rewrite length_app, Nat2Z.inj_add, splice_length by done.
  destruct Hs. simpl. lia.
Qed.

Lemma handleEditEventV2_inRange d s : cursorInRange (handleEditEventV2 d s).
Proof. rewrite handleEditEventV2_eq. unfold cursorInRange. simpl. lia. Qed.

Lemma handleEditEventV2_editCount d s :
  editCount (handleEditEventV2 d s)
  = Z.of_nat (length (history (handleEditEventV2 d s))).
Proof. by rewrite handleEditEventV2_eq. Qed.

Lemma call_inRange (c : Call) s :
  cursorInRange s → ∃ s', call c s = Normal s' ∧ cursorInRange s'.
Proof.
  intros Hs. destruct c as [e|d|n|n]; simpl.
  - eauto using handleEditEvent_inRange.
  - eauto using handleEditEventV2_inRange.
  - destruct (undo_inRange n s Hs) as (s' & ? & ? & _). eauto.
  - destruct (redo_inRange n s Hs) as (s' & ? & ? & _). eauto.
Qed.

Lemma run_inRange (cs : list Call) : ∀ s,
  cursorInRange s → ∃ s', run cs s = Normal s' ∧ cursorInRange s'.
Proof.
  induction cs as [|c cs IH]; intros s Hs; simpl.
  - eauto.
  - destruct (call_inRange c s Hs) as (s1 & -> & Hs1). by apply IH.
Qed.

End Properties.

(** ** The plugin registry *)
Section Plugins.
Context `{Platform}.
Implicit Types (s : OpenSCD) (uri tag : string).

Lemma pluginTag_hit uri tag s :
  pluginTags s !! uri = Some tag → pluginTag uri s = (tag, s).
Proof. intros Hmemo. unfold pluginTag. by rewrite Hmemo. Qed.

Lemma pluginTag_memo uri s :
  pluginTags (pluginTag uri s).2 !! uri = Some (pluginTag uri s).1.
Proof.
  unfold pluginTag. destruct (pluginTags s !! uri) eqn:Hmemo; simpl.
  - done.
  - apply lookup_insert_eq.
Qed.

Lemma pluginTag_keeps uri uri' tag s :
  pluginTags s !! uri = Some tag →
  pluginTags (pluginTag uri' s).2 !! uri = Some tag.
Proof.
  intros Hmemo. unfold pluginTag.
  destruct (pluginTags s !! uri') eqn:Hmemo'; simpl; [done|].
  rewrite lookup_insert_ne; [done | congruence].
Qed.

Lemma pluginTagAll_keeps uris : ∀ uri tag s,
  pluginTags s !! uri = Some tag →
  pluginTags (pluginTagAll uris s) !! uri = Some tag.
Proof.
  induction uris as [|uri' uris IH]; intros uri tag s Hmemo; simpl; [done|].
  apply IH. by apply pluginTag_keeps.
Qed.

(** [pluginTag] touches nothing but the memo. *)
Lemma pluginTag_frame uri s :
  let s' := (pluginTag uri s).2 in
  loadedPlugins s' = loadedPlugins s ∧ imports s' = imports s
  ∧ customElements s' = customElements s.
Proof. unfold pluginTag. by destruct (pluginTags s !! uri). Qed.

Lemma filter_none {A} (P : A → Prop) `{∀ x, Decision (P x)} (l : list A) :
  Forall (λ x, ¬ P x) l → filter P l = [].
Proof.
  induction 1 as [|x l Hx _ IH]; [done|].
  by rewrite filter_cons_False.
Qed.

(** A key that is present has one entry. *)
Lemma one_entry {V} (m : gmap string V) (k : string) (v : V) :
  m !! k = Some v →
  length (filter (λ kv, kv.1 = k) (map_to_list m)) = 1%nat.
Proof.
  intros Hk. rewrite <- (insert_delete_id m k v Hk).
  rewrite map_to_list_insert by apply lookup_delete_eq.
  rewrite filter_cons_True by done.
  rewrite filter_none; [done|].
  apply Forall_forall. intros [k' v'] Hin Heq. simpl in Heq. subst k'.
  apply elem_of_map_to_list in Hin. by rewrite lookup_delete_eq in Hin.
Qed.

(** What [loadPlugin] leaves: the tag is loaded, and at most one import
    was started. *)
Lemma loadPlugin_loaded (plugin : Plugin) s :
  let s1 := stateOf (loadPlugin plugin s) in
  let tag := (pluginTag (src plugin) s).1 in
  pluginTags s1 !! src plugin = Some tag
  ∧ is_Some (loadedPlugins s1 !! tag)
  ∧ (length (imports s1) ≤ S (length (imports s)))%nat.
Proof.
  unfold loadPlugin.
  pose proof (pluginTag_memo (src plugin) s) as Hmemo.
  pose proof (pluginTag_frame (src plugin) s) as (_ & Himports & _).
  destruct (pluginTag (src plugin) s) as [tag s0]. simpl in *.
  rewrite <- Himports. clear Himports.
  case_bool_decide as Hloaded; simpl.
  { repeat split; [done | done | lia]. }
  case_bool_decide as Hdefined; simpl.
  { repeat split; [done | by rewrite lookup_insert_eq | lia]. }
  destruct (resolveURL (src plugin)) as [url|]; simpl.
  - repeat split; [done | by rewrite lookup_insert_eq |].
    rewrite length_app. simpl. lia.
  - repeat split; [done | by rewrite lookup_insert_eq | lia].
Qed.

(** A plugin whose tag is loaded is not loaded again. *)
Lemma loadPlugin_again (plugin : Plugin) tag s :
  pluginTags s !! src plugin = Some tag →
  is_Some (loadedPlugins s !! tag) →
  loadPlugin plugin s = Normal s.
Proof.
  intros Hmemo Hloaded. unfold loadPlugin.
  rewrite (pluginTag_hit _ _ _ Hmemo). by rewrite bool_decide_eq_true_2.
Qed.

End Plugins.

(** ** The claims *)
Section Claims.
Context `{Platform}.
Implicit Types (s : OpenSCD) (d : EditDetailV2) (entry : LogEntry).

Lemma cut_all s :
  editCount s = Z.of_nat (length (history s)) → cut s = history s.
Proof.
  intros Hc. unfold cut. rewrite splice_take by lia.
  rewrite Hc, Nat2Z.id. apply take_ge. lia.
Qed.

Lemma cut_empty s : editCount s = 0 → cut s = [].
Proof. intros Hc. unfold cut. rewrite Hc. apply splice_zero. Qed.

Lemma cut_take s :
  cursorInRange s → cut s = take (Z.to_nat (editCount s)) (history s).
Proof. intros Hs. by apply splice_take. Qed.

Lemma pop_take {A} (l : list A) (n : nat) :
  (n ≤ length l)%nat → Js.pop (take n l) = take (n - 1) l.
Proof.
  intros Hn. unfold Js.pop. rewrite removelast_firstn_len, length_take.
  rewrite take_take. f_equal. lia.
Qed.

(** After an append the cursor is at the end, so [redo] finds nothing. *)
Lemma redo_at_end n s :
  editCount s = Z.of_nat (length (history s)) → redo n s = Normal s.
Proof. intros Hc. apply redo_exhausted. lia. Qed.

(** C1. Appending A through [handleEditEventV2] without squash and then B
    with [squash = true] leaves, after the entries the first call kept,
    one entry in place of two: its redo is the array of A's edits
    followed by B's, its undo the array of the edits undoing B followed
    by those undoing A; run in order, they are A then B, and undo(B) then
    undo(A). *)
Theorem squash_correctness s (A B : EditV2) (titleA titleB : option string)
    (squashA : option bool) :
  Js.toBoolean squashA = false →
  let s1 := handleEditEventV2 (mkEditDetailV2 A titleA squashA) s in
  let s2 := handleEditEventV2 (mkEditDetailV2 B titleB (Some true)) s1 in
  let undoA := (handleEdit A (dom s)).1 in
  let undoB := (handleEdit B (dom s1)).1 in
  ∃ entryA entry,
    history s1 = cut s ++ [entryA]
    ∧ LogEntry.redo entryA = A ∧ LogEntry.undo entryA = undoA
    ∧ history s2 = cut s ++ [entry]
    ∧ LogEntry.redo entry = Complex (editsOf A ++ editsOf B)
    ∧ LogEntry.undo entry = Complex (editsOf undoB ++ editsOf undoA)
    ∧ (∀ dom0, applyAll (editsOf (LogEntry.redo entry)) dom0
             = applyAll (editsOf B) (applyAll (editsOf A) dom0))
    ∧ (∀ dom0, applyAll (editsOf (LogEntry.undo entry)) dom0
             = applyAll (editsOf undoA) (applyAll (editsOf undoB) dom0)).
Proof.
  intros HsquashA s1 s2 undoA undoB.
  set (dA := mkEditDetailV2 A titleA squashA).
  set (dB := mkEditDetailV2 B titleB (Some true)).
  assert (history s1 = cut s ++ [plainEntry dA s]) as Hs1.
  { unfold s1. rewrite handleEditEventV2_eq. simpl. by rewrite HsquashA. }
  assert (cut s1 = cut s ++ [plainEntry dA s]) as Hcut.
  { rewrite cut_all; [done|]. apply handleEditEventV2_editCount. }
  exists (plainEntry dA s), (squashedEntry dB (plainEntry dA s) s1).
  repeat split; try done.
  - unfold s2. rewrite handleEditEventV2_eq. simpl.
    rewrite Hcut, last_snoc. fold (Js.push (cut s) (plainEntry dA s)).
    by rewrite pop_push.
  - intros dom0. simpl. unfold applyAll. by rewrite foldl_app.
  - intros dom0. simpl. unfold applyAll. by rewrite foldl_app.
Qed.

(** C2. From the initial state, any sequence of [handleEditEvent],
    [handleEditEventV2], [undo(n)] and [redo(n)] runs to the end without
    throwing and leaves [0 <= editCount <= history.length]; the cursor
    splits the history into the applied entries and the ones to redo. *)
Theorem cursor_in_range (cs : list Call) (dom0 : Dom)
    (tags : gmap string string) (defined : gset string) :
  ∃ s, run cs (new_OpenSCD dom0 tags defined) = Normal s
       ∧ 0 ≤ editCount s ≤ Z.of_nat (length (history s))
       ∧ history s = reverse (applied s) ++ redoable s
       ∧ Z.of_nat (length (applied s)) = editCount s.
Proof.
  destruct (run_inRange cs (new_OpenSCD dom0 tags defined)) as (s & Hrun & Hs).
  { split; simpl; lia. }
  exists s. split; [done|]. split; [done|]. split.
  - unfold applied, redoable. rewrite reverse_involutive.
    symmetry. apply take_drop.
  - by apply applied_length.
Qed.

(** C3. When [undo(k)] has left the cursor before the end of the history,
    the next append drops every entry from the cursor on before it records
    its own entry, leaves [editCount = history.length], and a following
    [redo] changes nothing. A squashing append also replaces the entry
    just before the cursor by the combined one. *)
Theorem truncation_on_branch (k : Z) s :
  cursorInRange s →
  let s1 := stateOf (undo k s) in
  undo k s = Normal s1 ∧
  (editCount s1 < Z.of_nat (length (history s1)) →
    (∀ e : Edit,
       let s2 := handleEditEvent e s1 in
       (∃ entry, history s2
                 = take (Z.to_nat (editCount s1)) (history s1) ++ [entry])
       ∧ editCount s2 = Z.of_nat (length (history s2))
       ∧ ∀ n, redo n s2 = Normal s2)
    ∧ (∀ d,
       let s2 := handleEditEventV2 d s1 in
       (∃ entry, history s2
                 = take (Z.to_nat (editCount s1)
                         - (if Js.toBoolean (squash d) then 1 else 0))
                     (history s1) ++ [entry])
       ∧ editCount s2 = Z.of_nat (length (history s2))
       ∧ ∀ n, redo n s2 = Normal s2)).
Proof.
  intros Hs s1.
  destruct (undo_inRange k s Hs) as (s1' & Hundo & Hs1 & _).
  unfold s1. rewrite Hundo. simpl. clear s1. split; [done|].
  intros Hbranch. split.
  - intros e. set (s2 := handleEditEvent e s1').
    assert (editCount s2 = Z.of_nat (length (history s2))) as Hend.
    { unfold s2. rewrite handleEditEvent_eq. simpl.
      rewrite length_app, Nat2Z.inj_add. unfold cut.
      rewrite splice_length by done. simpl. lia. }
    split; [|split; [done | intros n; by apply redo_at_end]].
    unfold s2. rewrite handleEditEvent_eq. simpl.
    rewrite cut_take by done. eauto.
  - intros d. set (s2 := handleEditEventV2 d s1').
    pose proof (handleEditEventV2_editCount d s1') as Hend. fold s2 in Hend.
    split; [|split; [done | intros n; by apply redo_at_end]].
    unfold s2. rewrite handleEditEventV2_eq. simpl.
    rewrite cut_take by done.
    destruct (Js.toBoolean (squash d)).
    + destruct (list.last _) as [prev|] eqn:Hlast.
      * rewrite pop_take by (destruct Hs1; lia). eauto.
      * apply last_None in Hlast. exists (plainEntry d s1').
        apply (f_equal length) in Hlast. rewrite length_take in Hlast.
        simpl in Hlast.
        replace (Z.to_nat (editCount s1') - 1)%nat with 0%nat by lia. done.
    + rewrite Nat.sub_0_r. eauto.
Qed.

(** C4. [undo] at cursor 0 and [redo] at the end of the history return
    the state they were given: history, cursor, DOM and [docVersion] are
    all as before. *)
Theorem idempotent_boundaries (n : Z) s :
  (editCount s = 0 → undo n s = Normal s)
  ∧ (editCount s = Z.of_nat (length (history s)) → redo n s = Normal s).
Proof.
  split; intros Hc.
  - rewrite undo_body, canUndo_false by lia. done.
  - rewrite redo_body, canRedo_false by lia. done.
Qed.

(** C5. [undo(n)] changes nothing when the cursor is 0 or [n < 1];
    otherwise it applies the stored undo edits of exactly
    [min(n, editCount)] entries, newest first, and lowers [editCount] and
    raises [docVersion] by that number. [redo(n)] is the mirror image over
    the [min(n, history.length - editCount)] entries from the cursor on. *)
Theorem undo_redo_steps (n : Z) s :
  cursorInRange s →
  (editCount s = 0 ∨ n < 1 → undo n s = Normal s)
  ∧ (0 < editCount s → 1 ≤ n →
      let m := Z.min n (editCount s) in
      let entries := take (Z.to_nat m) (applied s) in
      Z.of_nat (length entries) = m
      ∧ undo n s
        = Normal (afterSteps (editCount s - m) m (LogEntry.undo <$> entries) s))
  ∧ (editCount s = Z.of_nat (length (history s)) ∨ n < 1 →
      redo n s = Normal s)
  ∧ (editCount s < Z.of_nat (length (history s)) → 1 ≤ n →
      let m := Z.min n (Z.of_nat (length (history s)) - editCount s) in
      let entries := take (Z.to_nat m) (redoable s) in
      Z.of_nat (length entries) = m
      ∧ redo n s
        = Normal (afterSteps (editCount s + m) m (LogEntry.redo <$> entries) s)).
Proof.
  intros Hs. split; [|split; [|split]].
  - intros Hstop. apply undo_exhausted. lia.
  - intros Hpos Hn m entries. split.
    + unfold entries. rewrite length_take.
      pose proof (applied_length s Hs). lia.
    + rewrite (undo_steps (Z.to_nat m)) by (done || lia).
      unfold entries. by rewrite Z2Nat.id by lia.
  - intros Hstop. apply redo_exhausted. lia.
  - intros Hleft Hn m entries. destruct Hs as [Hlo Hhi]. split.
    + unfold entries. rewrite length_take.
      pose proof (redoable_length s (conj Hlo Hhi)). lia.
    + rewrite (redo_steps (Z.to_nat m)) by (done || lia).
      unfold entries. by rewrite Z2Nat.id by lia.
Qed.

(** C6. With the cursor at 0, an append with the title "add X" followed
    by a squashing append without a title leaves one history entry, titled
    "add X", and [editCount = 1]. *)
Theorem squash_keeps_title s (A B : EditV2) (squashA : option bool) :
  editCount s = 0 →
  let s1 := handleEditEventV2 (mkEditDetailV2 A (Some "add X"%string) squashA) s in
  let s2 := handleEditEventV2 (mkEditDetailV2 B None (Some true)) s1 in
  ∃ entry, history s2 = [entry]
           ∧ LogEntry.title entry = Some "add X"%string
           ∧ editCount s2 = 1.
Proof.
  intros Hc s1 s2.
  set (dA := mkEditDetailV2 A (Some "add X"%string) squashA).
  assert (history s1 = [plainEntry dA s]) as Hs1.
  { unfold s1. rewrite handleEditEventV2_eq. simpl.
    rewrite cut_empty by done. by destruct (Js.toBoolean squashA). }
  assert (cut s1 = [plainEntry dA s]) as Hcut.
  { rewrite cut_all; [done|]. apply handleEditEventV2_editCount. }
  unfold s2. rewrite handleEditEventV2_eq. simpl. rewrite Hcut. simpl.
  eexists. split; [reflexivity|]. done.
Qed.

(** C9. A non-squashing [handleEditEventV2] without a title, or with the
    empty string as title, on a cut history that is not empty records an
    entry with the title of the entry before it. *)
Theorem title_fallback_every_append d s :
  Js.toBoolean (squash d) = false →
  Js.truthy (title d) = false →
  cut s ≠ [] →
  ∃ prev entry,
    list.last (cut s) = Some prev
    ∧ history (handleEditEventV2 d s) = cut s ++ [entry]
    ∧ LogEntry.title entry = LogEntry.title prev.
Proof.
  intros Hsquash Htitle Hcut.
  destruct (list.last (cut s)) as [prev|] eqn:Hlast;
    [|by apply last_None in Hlast].
  exists prev, (plainEntry d s). split; [done|].
  rewrite handleEditEventV2_eq. simpl. rewrite Hsquash. split; [done|].
  unfold Js.or. simpl. by rewrite Htitle, Hlast.
Qed.

(** C10. A squashing [handleEditEventV2] on a cut history that is empty
    (the cursor was 0) pops nothing and combines nothing: [squashUndo] and
    [squashRedo] give back their argument, the one entry recorded holds the
    undo edit as [handleEdit] returned it and the edit as given, and
    [editCount] is 1. *)
Theorem squash_on_empty_history d s :
  Js.toBoolean (squash d) = true →
  editCount s = 0 →
  let cutState := set_history (cut s) s in
  let s' := handleEditEventV2 d s in
  (∀ e, squashUndo e cutState = e ∧ squashRedo e cutState = e)
  ∧ Js.pop (cut s) = cut s
  ∧ history s'
    = [LogEntry.make (handleEdit (edit d) (dom s)).1 (edit d)
         (Js.or (title d) None)]
  ∧ editCount s' = 1.
Proof.
  intros Hsquash Hc cutState s'.
  pose proof (cut_empty s Hc) as Hcut.
  split; [|split; [|split]].
  - intros e. unfold squashUndo, squashRedo, cutState. simpl.
    by rewrite Hcut.
  - by rewrite Hcut.
  - unfold s'. rewrite handleEditEventV2_eq. simpl.
    rewrite Hsquash, Hcut. simpl. unfold plainEntry. by rewrite Hcut.
  - unfold s'. rewrite handleEditEventV2_eq. simpl.
    by rewrite Hsquash, Hcut.
Qed.

(** C7, as the code has it. When [docName] is no key of [docs], reading
    [doc] does not fail: it returns what the property lookup
    [docs[docName]] finds, which is [undefined] unless [docName] names a
    member of [Object.prototype]. *)
Theorem doc_unknown_returns s :
  docs s !! docName s = None →
  doc s = Js.Return
            (if bool_decide (docName s ∈ Js.objectPrototype)
             then Js.Inherited (docName s) else Js.Undefined).
Proof. intros Hdoc. unfold doc, Js.get. by rewrite Hdoc. Qed.

(** C8. [pluginTag] returns for a URI the tag it returned before, whatever
    other tags were asked for in between; and of two [loadPlugin] calls
    with the same [src] the second changes nothing: the tag has one entry
    in [loadedPlugins], and at most one import was started. *)
Theorem plugin_tag_stable_load_once (uri : string) (uris : list string)
    (p1 p2 : Plugin) s :
  src p1 = src p2 →
  (let s0 := pluginTagAll uris (pluginTag uri s).2 in
   pluginTag uri s0 = ((pluginTag uri s).1, s0))
  ∧ (let s1 := stateOf (loadPlugin p1 s) in
     let tag := (pluginTag (src p1) s).1 in
     loadPlugin p2 s1 = Normal s1
     ∧ length (filter (λ kv, kv.1 = tag) (map_to_list (loadedPlugins s1)))
       = 1%nat
     ∧ (length (imports s1) ≤ S (length (imports s)))%nat).
Proof.
  intros Hsrc. split.
  - intros s0. apply pluginTag_hit, pluginTagAll_keeps, pluginTag_memo.
  - intros s1 tag.
    destruct (loadPlugin_loaded p1 s) as (Hmemo & [p Hloaded] & Himports).
    fold s1 tag in Hmemo, Hloaded, Himports.
    split; [|split; [|done]].
    + apply (loadPlugin_again p2 tag); [by rewrite <- Hsrc | eauto].
    + by apply (one_entry _ _ p).
Qed.

End Claims.

(** ** The claims at work

    Each statement below is one of the theorems above at a concrete state
    of the element on the [Journal] platform. *)

Lemma squash_correctness_witness :
  Js.toBoolean None = false
  ∧ ∃ entry,
      history
        (handleEditEventV2 (mkEditDetailV2 Journal.removeY None (Some true))
           (handleEditEventV2 (mkEditDetailV2 Journal.insertX None None)
              Journal.fresh))
      = [entry]
      ∧ LogEntry.redo entry = Complex [Journal.insertX; Journal.removeY]
      ∧ LogEntry.undo entry
        = Complex [Insert 1%positive 3%positive None; Remove 2%positive].
Proof.
  split; [reflexivity|].
  destruct (squash_correctness Journal.fresh Journal.insertX Journal.removeY
              None None None eq_refl)
    as (_ & entry & _ & _ & _ & Hhistory & Hredo & Hundo & _).
  exists entry. split; [exact Hhistory | split; [exact Hredo | exact Hundo]].
Defined.

Lemma truncation_on_branch_witness :
  cursorInRange Journal.twoEdits
  ∧ editCount Journal.midway < Z.of_nat (length (history Journal.midway))
  ∧ (∀ n, redo n (handleEditEvent (H:=Journal.platform) Journal.renameZ Journal.midway)
          = Normal (handleEditEvent (H:=Journal.platform) Journal.renameZ Journal.midway))
  ∧ length (history (handleEditEvent (H:=Journal.platform) Journal.renameZ Journal.midway)) = 2%nat.
Proof.
  assert (cursorInRange Journal.twoEdits) as Hrange
    by (vm_compute; split; discriminate).
  assert (editCount Journal.midway
          < Z.of_nat (length (history Journal.midway))) as Hbranch
    by (vm_compute; reflexivity).
  split; [exact Hrange | split; [exact Hbranch|]].
  destruct (truncation_on_branch 1 Journal.twoEdits Hrange) as [_ Happend].
  destruct (Happend Hbranch) as [Hlegacy _].
  destruct (Hlegacy Journal.renameZ) as (_ & _ & Hredo).
  split; [exact Hredo | vm_compute; reflexivity].
Defined.

Lemma idempotent_boundaries_witness :
  editCount Journal.fresh = 0
  ∧ editCount Journal.fresh = Z.of_nat (length (history Journal.fresh))
  ∧ undo 1 Journal.fresh = Normal Journal.fresh
  ∧ redo 1 Journal.fresh = Normal Journal.fresh.
Proof.
  destruct (idempotent_boundaries 1 Journal.fresh) as [Hundo Hredo].
  split; [reflexivity | split; [reflexivity|]].
  split; [apply Hundo | apply Hredo]; reflexivity.
Defined.

Lemma undo_redo_steps_witness :
  cursorInRange Journal.midway
  ∧ (0 < editCount Journal.midway ∧ 1 ≤ 5
     ∧ editCount Journal.midway < Z.of_nat (length (history Journal.midway)))
  ∧ (editCount (stateOf (undo 5 Journal.midway)) = 0
     ∧ docVersion (stateOf (undo 5 Journal.midway))
       = docVersion Journal.midway + 1)
  ∧ (editCount (stateOf (redo 5 Journal.midway)) = 2
     ∧ docVersion (stateOf (redo 5 Journal.midway))
       = docVersion Journal.midway + 1)
  ∧ undo 0 Journal.midway = Normal Journal.midway
  ∧ redo 0 Journal.midway = Normal Journal.midway.
Proof.
  assert (cursorInRange Journal.midway) as Hrange
    by (vm_compute; split; discriminate).
  assert (0 < editCount Journal.midway) as Hpos by (vm_compute; reflexivity).
  assert (1 ≤ 5) as Hn by discriminate.
  assert (editCount Journal.midway
          < Z.of_nat (length (history Journal.midway))) as Hleft
    by (vm_compute; reflexivity).
  destruct (undo_redo_steps 5 Journal.midway Hrange)
    as (_ & Hundo & _ & Hredo).
  destruct (undo_redo_steps 0 Journal.midway Hrange)
    as (Hundo0 & _ & Hredo0 & _).
  destruct (Hundo Hpos Hn) as [_ Hu]. destruct (Hredo Hleft Hn) as [_ Hr].
  split; [exact Hrange|]. split; [by repeat split|].
  split; [rewrite Hu; split; vm_compute; reflexivity|].
  split; [rewrite Hr; split; vm_compute; reflexivity|].
  split; [apply Hundo0 | apply Hredo0]; right; reflexivity.
Defined.

Lemma squash_keeps_title_witness :
  editCount Journal.fresh = 0
  ∧ ∃ entry,
      history
        (handleEditEventV2 (mkEditDetailV2 Journal.removeY None (Some true))
           Journal.oneTitled)
      = [entry]
      ∧ LogEntry.title entry = Some "add X"%string.
Proof.
  split; [reflexivity|].
  destruct (squash_keeps_title Journal.fresh Journal.insertX Journal.removeY
              None eq_refl) as (entry & Hhistory & Htitle & _).
  exists entry. split; [exact Hhistory | exact Htitle].
Defined.

(** C7, as the spec has it, fails here: [docName] is set, [docs] has no
    such key, and [doc] returns [undefined] where the claim has it signal
    NotFound. *)
Lemma doc_unknown_is_undefined :
  docName Journal.unknownDoc = "A.scd"%string
  ∧ docs Journal.unknownDoc !! "A.scd"%string = None
  ∧ doc Journal.unknownDoc = Js.Return Js.Undefined.
Proof. split; [reflexivity | split; vm_compute; reflexivity]. Qed.

Lemma doc_unknown_returns_witness :
  docs Journal.inheritedDoc !! docName Journal.inheritedDoc = None
  ∧ doc Journal.inheritedDoc = Js.Return (Js.Inherited "toString").
Proof.
  assert (docs Journal.inheritedDoc !! docName Journal.inheritedDoc = None)
    as Hdoc by reflexivity.
  split; [exact Hdoc|].
  rewrite (doc_unknown_returns Journal.inheritedDoc Hdoc). reflexivity.
Defined.

Lemma plugin_tag_stable_load_once_witness :
  src Journal.pluginA = src Journal.pluginB
  ∧ (pluginTag "a.js" (pluginTagAll ["b.js"; "a.js"; "c.js"]%string
                         (pluginTag "a.js" Journal.fresh).2)).1
    = (pluginTag "a.js" Journal.fresh).1
  ∧ loadPlugin Journal.pluginB (stateOf (loadPlugin Journal.pluginA Journal.fresh))
    = Normal (stateOf (loadPlugin Journal.pluginA Journal.fresh)).
Proof.
  split; [reflexivity|].
  destruct (plugin_tag_stable_load_once "a.js" ["b.js"; "a.js"; "c.js"]%string
              Journal.pluginA Journal.pluginB Journal.fresh eq_refl)
    as [Hstable (Hagain & _)].
  split; [exact (f_equal fst Hstable) | exact Hagain].
Defined.

Lemma title_fallback_every_append_witness :
  Js.toBoolean (Some false) = false
  ∧ Js.truthy (Some EmptyString) = false
  ∧ cut Journal.oneTitled ≠ []
  ∧ ∃ entry,
      list.last
        (history
           (handleEditEventV2
              (mkEditDetailV2 Journal.removeY (Some EmptyString) (Some false))
              Journal.oneTitled))
      = Some entry
      ∧ LogEntry.title entry = Some "add X"%string.
Proof.
  assert (cut Journal.oneTitled ≠ []) as Hcut by (vm_compute; discriminate).
  split; [reflexivity | split; [reflexivity | split; [exact Hcut|]]].
  destruct (title_fallback_every_append
              (mkEditDetailV2 Journal.removeY (Some EmptyString) (Some false))
              Journal.oneTitled eq_refl eq_refl Hcut)
    as (prev & entry & Hprev & Hhistory & Htitle).
  exists entry. split.
  - rewrite Hhistory. apply last_snoc.
  - rewrite Htitle. vm_compute in Hprev. by injection Hprev as <-.
Defined.

Lemma squash_on_empty_history_witness :
  Js.toBoolean (Some true) = true
  ∧ editCount Journal.fresh = 0
  ∧ history
      (handleEditEventV2 (mkEditDetailV2 Journal.insertX None (Some true))
         Journal.fresh)
    = [LogEntry.make (Remove 2%positive) Journal.insertX None]
  ∧ editCount
      (handleEditEventV2 (mkEditDetailV2 Journal.insertX None (Some true))
         Journal.fresh)
    = 1.
Proof.
  split; [reflexivity | split; [reflexivity|]].
  destruct (squash_on_empty_history
              (mkEditDetailV2 Journal.insertX None (Some true))
              Journal.fresh eq_refl eq_refl) as (_ & _ & Hhistory & Hcount).
  split; [exact Hhistory | exact Hcount].
Defined.

(** * More of the element *)

(** ** The history, further *)
Section History.
Context `{Platform}.
Implicit Types (s : OpenSCD) (d : EditDetailV2) (entry : LogEntry).

(** [undo n] with something to undo and [n >= 1]: the entry is read,
    and the rest is [undo (n - 1)]. *)
Lemma undo_started n s :
  0 < editCount s → 1 ≤ n →
  undo n s =
    match Js.at_ (history s) (last s) with
    | None => TypeError s
    | Some entry =>
        if decide (1 < n) then undo (n - 1) (undoStep entry s)
        else Normal (undoStep entry s)
    end.
Proof.
  intros Hc Hn. rewrite undo_body, canUndo_true by done.
  by destruct (Z.ltb_spec n 1); [lia|].
Qed.

Lemma redo_started n s :
  editCount s < Z.of_nat (length (history s)) → 1 ≤ n →
  redo n s =
    match Js.at_ (history s) (editCount s) with
    | None => TypeError s
    | Some entry =>
        if decide (1 < n) then redo (n - 1) (redoStep entry s)
        else Normal (redoStep entry s)
    end.
Proof.
  intros Hc Hn. rewrite redo_body, canRedo_true by done.
  by destruct (Z.ltb_spec n 1); [lia|].
Qed.

(** [undo a] followed by [undo b], by induction on [a]. *)
Lemma undo_then_undo (k : nat) : ∀ a b s,
  Z.to_nat a = k → 0 ≤ a → 1 ≤ b →
  undo b (stateOf (undo a s)) = undo (a + b) s.
Proof.
  induction k as [|k IH]; intros a b s Hk Ha Hb.
  { assert (a = 0) as -> by lia. by rewrite (undo_exhausted 0) by lia. }
  destruct (Z.le_gt_cases (editCount s) 0) as [Hc|Hc].
  { by rewrite !(undo_exhausted _ s) by lia. }
  rewrite (undo_started a), (undo_started (a + b)) by lia.
  destruct (Js.at_ (history s) (last s)) as [entry|] eqn:Hentry; simpl.
  - rewrite (decide_True (P := 1 < a + b)) by lia.
    case_decide as Hmore.
    + rewrite (IH (a - 1)) by lia. f_equal. lia.
    + f_equal. lia.
  - rewrite (undo_started b) by lia. by rewrite Hentry.
Qed.

Lemma redo_then_redo (k : nat) : ∀ a b s,
  Z.to_nat a = k → 0 ≤ a → 1 ≤ b →
  redo b (stateOf (redo a s)) = redo (a + b) s.
Proof.
  induction k as [|k IH]; intros a b s Hk Ha Hb.
  { assert (a = 0) as -> by lia. by rewrite (redo_exhausted 0) by lia. }
  destruct (Z.le_gt_cases (Z.of_nat (length (history s))) (editCount s))
    as [Hc|Hc].
  { by rewrite !(redo_exhausted _ s) by lia. }
  rewrite (redo_started a), (redo_started (a + b)) by lia.
  destruct (Js.at_ (history s) (editCount s)) as [entry|] eqn:Hentry; simpl.
  - rewrite (decide_True (P := 1 < a + b)) by lia.
    case_decide as Hmore.
    + rewrite (IH (a - 1)) by lia. f_equal. lia.
    + f_equal. lia.
  - rewrite (redo_started b) by lia. by rewrite Hentry.
Qed.

(** X1. Two calls of [undo] in a row are one: [undo(a)] followed by
    [undo(b)] ends as [undo(a + b)] does, for [a >= 0] and [b >= 1],
    wherever the cursor is (a throw included). *)
Theorem undo_composes (a b : Z) s :
  0 ≤ a → 1 ≤ b → undo b (stateOf (undo a s)) = undo (a + b) s.
Proof. intros Ha Hb. by apply (undo_then_undo (Z.to_nat a)). Qed.

(** X2. Two calls of [redo] in a row are one: [redo(a)] followed by
    [redo(b)] ends as [redo(a + b)] does, for [a >= 0] and [b >= 1]. *)
Theorem redo_composes (a b : Z) s :
  0 ≤ a → 1 ≤ b → redo b (stateOf (redo a s)) = redo (a + b) s.
Proof. intros Ha Hb. by apply (redo_then_redo (Z.to_nat a)). Qed.

(** X3. With the cursor in range and [1 <= n <= editCount], [undo(n)]
    followed by [redo(n)] brings the cursor back and leaves the history as
    it was; [docVersion] has grown by [2 n], and [handleEdit] was given
    the undo edits of the last [n] applied entries, newest first, and then
    their redo edits, oldest first. *)
Theorem undo_redo_round_trip (n : Z) s :
  cursorInRange s → 1 ≤ n ≤ editCount s →
  let undone := take (Z.to_nat n) (applied s) in
  redo n (stateOf (undo n s))
  = Normal (afterSteps (editCount s) (n + n)
              ((LogEntry.undo <$> undone) ++ (LogEntry.redo <$> reverse undone))
              s).
Proof.
  intros [Hlo Hhi] [Hn Hnc] undone.
  rewrite (undo_steps (Z.to_nat n)) by (done || lia). simpl.
  rewrite (redo_steps (Z.to_nat n)); cycle 1.
  { split; simpl; lia. } { lia. } { simpl. lia. }
  rewrite afterSteps_more. simpl. rewrite !Z2Nat.id by lia.
  replace (editCount s - n + n) with (editCount s) by lia.
  do 3 f_equal. unfold redoable, undone, applied. simpl.
  rewrite take_reverse, reverse_involutive, length_take.
  rewrite skipn_firstn_comm.
  replace (Z.to_nat (editCount s) `min` length (history s))%nat
    with (Z.to_nat (editCount s)) by lia.
  replace (Z.to_nat (editCount s) - Z.to_nat n)%nat
    with (Z.to_nat (editCount s - n)) by lia.
  do 2 f_equal. lia.
Qed.

(** X4. With the cursor in range and no title on the last entry kept, the
    legacy [handleEditEvent] leaves the very state [handleEditEventV2]
    leaves for the converted edit without title and without squash. *)
Theorem legacy_agrees_with_v2 (e : Edit) (noSquash : option bool) s :
  cursorInRange s →
  Js.toBoolean noSquash = false →
  from_option LogEntry.title None (list.last (cut s)) = None →
  handleEditEventV2 (mkEditDetailV2 (convertEdit e) None noSquash) s
  = handleEditEvent e s.
Proof.
  intros Hs Hsquash Htitle.
  rewrite handleEditEventV2_eq, handleEditEvent_eq. simpl.
  rewrite Hsquash. unfold plainEntry. simpl. rewrite Htitle.
  f_equal. rewrite length_app, Nat2Z.inj_add. unfold cut.
  by rewrite splice_length.
Qed.

Lemma call_version (c : Call) s :
  cursorInRange s →
  ∃ s', call c s = Normal s' ∧ cursorInRange s'
        ∧ (s' = s ∨ docVersion s < docVersion s').
Proof.
  intros Hs. destruct c as [e|d|n|n]; simpl.
  - eexists. split; [done|]. split; [by apply handleEditEvent_inRange|].
    right. rewrite handleEditEvent_eq. simpl. lia.
  - eexists. split; [done|]. split; [by apply handleEditEventV2_inRange|].
    right. rewrite handleEditEventV2_eq. simpl. lia.
  - destruct (Z.lt_ge_cases n 1) as [Hn|Hn].
    { exists s. rewrite undo_exhausted by lia. auto. }
    destruct (decide (editCount s = 0)) as [Hc|Hc].
    { exists s. rewrite undo_exhausted by lia. auto. }
    destruct (undo_inRange n s Hs) as (s' & Hundo & Hs' & _).
    exists s'. split; [done|]. split; [done|]. right.
    rewrite (undo_steps (Z.to_nat (Z.min n (editCount s)))) in Hundo
      by (done || destruct Hs; lia).
    injection Hundo as <-. destruct Hs as [Hlo Hhi]. simpl. lia.
  - destruct (Z.lt_ge_cases n 1) as [Hn|Hn].
    { exists s. rewrite redo_exhausted by lia. auto. }
    destruct (redo_inRange n s Hs) as (s' & Hredo & Hs' & _).
    exists s'. split; [done|]. split; [done|].
    destruct Hs as [Hlo Hhi].
    destruct (decide (editCount s = Z.of_nat (length (history s)))) as [Hc|Hc].
    + left. rewrite redo_at_end in Hredo by done. by injection Hredo.
    + right.
      rewrite (redo_steps (Z.to_nat
        (Z.min n (Z.of_nat (length (history s)) - editCount s)))) in Hredo
        by (done || lia).
      injection Hredo as <-. simpl. lia.
Qed.

(** X5. From a state with the cursor in range, a sequence of
    [handleEditEvent], [handleEditEventV2], [undo] and [redo] calls either
    leaves the state exactly as it was or leaves [docVersion] larger:
    no change goes without a new version. *)
Theorem version_tells_change (cs : list Call) s :
  cursorInRange s →
  ∃ s', run cs s = Normal s' ∧ (s' = s ∨ docVersion s < docVersion s').
Proof.
  revert s. induction cs as [|c cs IH]; intros s Hs; simpl.
  - eauto.
  - destruct (call_version c s Hs) as (s1 & -> & Hs1 & Hstep).
    destruct (IH s1 Hs1) as (s' & Hrun & Hrest).
    exists s'. split; [done|].
    destruct Hstep as [->|Hstep], Hrest as [->|Hrest]; auto. right. lia.
Qed.

(** X7. With a cursor beyond the end of the history [undo(n)] throws, and
    with a cursor below 0 [redo(n)] throws, for [n >= 1]: the entry read
    is [undefined]. Nothing has changed when the error is thrown. *)
Theorem broken_cursor_throws (n : Z) s :
  1 ≤ n →
  (Z.of_nat (length (history s)) < editCount s → undo n s = TypeError s)
  ∧ (editCount s < 0 → redo n s = TypeError s).
Proof.
  intros Hn. split; intros Hc.
  - rewrite undo_started by lia.
    rewrite at_lookup by (unfold last; lia).
    rewrite lookup_ge_None_2; [done | unfold last; lia].
  - rewrite redo_started by lia. unfold Js.at_.
    by destruct (Z.ltb_spec (editCount s) 0); [|lia].
Qed.

End History.

(** ** Chains of squashed edits *)
Section SquashChain.
Context `{Platform}.
Implicit Types (s : OpenSCD) (es : list EditV2).

Lemma applyAll_snoc es (x : EditV2) (tree : Dom) :
  applyAll (es ++ [x]) tree = (handleEdit x (applyAll es tree)).2.
Proof. unfold applyAll. by rewrite foldl_snoc. Qed.

Lemma inverses_snoc es (x : EditV2) : ∀ tree : Dom,
  inverses (es ++ [x]) tree
  = inverses es tree ++ [(handleEdit x (applyAll es tree)).1].
Proof.
  induction es as [|e es IH]; intros tree; simpl; [done|].
  by rewrite IH.
Qed.

Lemma squashAll_snoc first es (x : EditV2) s :
  squashAll first (es ++ [x]) s
  = handleEditEventV2 (mkEditDetailV2 x None (Some true)) (squashAll first es s).
Proof. unfold squashAll. by rewrite foldl_snoc. Qed.

(** X6. A plain append followed by any number of squashing appends (no
    titles) leaves one entry after the entries the first call kept. Its
    redo stands for the edits of all the calls in order, its undo for
    their inverses, as [handleEdit] returned them, in reverse order; its
    title is the one of the last entry kept. The cursor is at the end and
    [docVersion] has grown by the number of calls. *)
Theorem squash_chain (first : EditV2) (more : list EditV2) s :
  let s' := squashAll first more s in
  ∃ entry,
    history s' = cut s ++ [entry]
    ∧ editsOf (LogEntry.redo entry)
      = editsOf first ++ concat (editsOf <$> more)
    ∧ editsOf (LogEntry.undo entry)
      = concat (editsOf <$> reverse (inverses (first :: more) (dom s)))
    ∧ LogEntry.title entry
      = from_option LogEntry.title None (list.last (cut s))
    ∧ editCount s' = Z.of_nat (length (history s'))
    ∧ docVersion s' = docVersion s + 1 + Z.of_nat (length more)
    ∧ dom s' = applyAll (first :: more) (dom s).
Proof.
  induction more as [|x more IH] using rev_ind; intros s'.
  - unfold s', squashAll. simpl. rewrite handleEditEventV2_eq. simpl.
    eexists. split; [reflexivity|]. simpl.
    rewrite !app_nil_r. repeat split; lia.
  - destruct IH as (entry & Hhistory & Hredo & Hundo & Htitle & Hcount
                    & Hversion & Hdom).
    set (s1 := squashAll first more s) in *.
    assert (cut s1 = cut s ++ [entry]) as Hcut
      by (by rewrite cut_all, Hhistory).
    unfold s'. rewrite squashAll_snoc. fold s1.
    rewrite handleEditEventV2_eq. simpl.
    rewrite Hcut, last_snoc. fold (Js.push (cut s) entry).
    rewrite pop_push.
    eexists. split; [reflexivity|]. simpl.
    split; [|split; [|split; [|split; [|split]]]].
    + rewrite Hredo, fmap_app, concat_app. simpl.
      by rewrite app_nil_r, app_assoc.
    + rewrite Hundo, Hdom.
      change ((handleEdit first (dom s)).1
              :: inverses (more ++ [x]) (handleEdit first (dom s)).2)
        with (inverses ((first :: more) ++ [x]) (dom s)).
      by rewrite inverses_snoc, reverse_snoc.
    + done.
    + done.
    + rewrite Hversion, length_app, Nat2Z.inj_add. simpl. lia.
    + rewrite Hdom.
      change (first :: more ++ [x]) with ((first :: more) ++ [x]).
      by rewrite applyAll_snoc.
Qed.

End SquashChain.

(** ** Plugin configuration *)
Section Configuration.
Context `{Platform}.
Implicit Types (s : OpenSCD) (uri tag : string) (plugin p q : Plugin)
  (kind : Kind.t).

Lemma editingKept_refl s : editingKept s s.
Proof. by repeat split. Qed.

Lemma editingKept_trans s1 s2 s3 :
  editingKept s1 s2 → editingKept s2 s3 → editingKept s1 s3.
Proof.
  intros (?&?&?&?&?&?) (?&?&?&?&?&?). repeat split; congruence.
Qed.

Lemma set_pluginTags_same s : set_pluginTags (pluginTags s) s = s.
Proof. by destruct s. Qed.

(** [pluginTag] extends the memo, and with the entry it answers from. *)
Lemma pluginTag_spec uri s :
  ∃ memo,
    (pluginTag uri s).2 = set_pluginTags memo s
    ∧ pluginTags s ⊆ memo
    ∧ memo !! uri = Some (pluginTag uri s).1.
Proof.
  unfold pluginTag. destruct (pluginTags s !! uri) as [tag|] eqn:Hmemo; simpl.
  - exists (pluginTags s). by rewrite set_pluginTags_same.
  - eexists. split; [done|]. split.
    + by apply insert_subseteq.
    + apply lookup_insert_eq.
Qed.

(** [loadPlugin], with the memo step named. *)
Lemma loadPlugin_eq plugin s :
  let tag := (pluginTag (src plugin) s).1 in
  let s0 := (pluginTag (src plugin) s).2 in
  let s1 := set_loadedPlugins (<[tag := plugin]> (loadedPlugins s)) s0 in
  loadPlugin plugin s =
    if bool_decide (is_Some (loadedPlugins s !! tag)) then Normal s0
    else if bool_decide (tag ∈ customElements s) then Normal s1
    else match resolveURL (src plugin) with
         | None => TypeError s1
         | Some url => Normal (set_imports (imports s ++ [(url, tag)]) s1)
         end.
Proof.
  intros tag s0 s1. unfold loadPlugin, s1, s0, tag.
  destruct (pluginTag_frame (src plugin) s) as (Hloaded & Himports & Hdefined).
  destruct (pluginTag (src plugin) s) as [tag' s']. simpl in *.
  by rewrite Hloaded, Himports, Hdefined.
Qed.

Lemma registryOk_memo s memo :
  registryOk s → pluginTags s ⊆ memo → registryOk (set_pluginTags memo s).
Proof.
  intros Hok Hsub tag plugin Hloaded. simpl in *.
  eapply lookup_weaken; [by apply Hok | done].
Qed.

Lemma registryOk_pluginTag uri s :
  registryOk s → registryOk (pluginTag uri s).2.
Proof.
  intros Hok. destruct (pluginTag_spec uri s) as (memo & -> & Hsub & _).
  by apply registryOk_memo.
Qed.

Lemma registryOk_loadPlugin plugin s :
  registryOk s → registryOk (stateOf (loadPlugin plugin s)).
Proof.
  intros Hok. rewrite loadPlugin_eq.
  pose proof (registryOk_pluginTag (src plugin) s Hok) as Hok0.
  pose proof (pluginTag_memo (src plugin) s) as Hmemo.
  pose proof (pluginTag_frame (src plugin) s) as (Hloaded & _ & _).
  set (tag := (pluginTag (src plugin) s).1) in *.
  set (s0 := (pluginTag (src plugin) s).2) in *.
  assert (registryOk
            (set_loadedPlugins (<[tag := plugin]> (loadedPlugins s)) s0))
    as Hok1.
  { intros tag' plugin' Hlookup. simpl in *.
    destruct (decide (tag = tag')) as [<-|Hne].
    - rewrite lookup_insert_eq in Hlookup. by injection Hlookup as <-.
    - rewrite lookup_insert_ne in Hlookup by done.
      apply Hok0. by rewrite Hloaded. }
  case_bool_decide; [done|]. case_bool_decide; [done|].
  by destruct (resolveURL (src plugin)).
Qed.

Lemma editingKept_pluginTag uri s : editingKept s (pluginTag uri s).2.
Proof. unfold pluginTag. by destruct (pluginTags s !! uri). Qed.

Lemma editingKept_loadPlugin plugin s :
  editingKept s (stateOf (loadPlugin plugin s)).
Proof.
  rewrite loadPlugin_eq.
  pose proof (editingKept_pluginTag (src plugin) s) as Hkept.
  case_bool_decide; [done|]. case_bool_decide; [done|].
  by destruct (resolveURL (src plugin)).
Qed.

(** [splice(index, 1)] inside the array removes the element there. *)
Lemma spliceCount_one {A} (arr : list A) (i : nat) :
  (i < length arr)%nat →
  JsArray.spliceCount arr (Z.of_nat i) 1 = delete i arr.
Proof.
  intros Hi. unfold JsArray.spliceCount.
  rewrite actualStart_id by lia. rewrite delete_take_drop.
  rewrite Nat2Z.id. do 2 f_equal. lia.
Qed.

(** [unloadPlugin] when the name is found. *)
Lemma unloadPlugin_found pluginName kind s (i : nat) plugin :
  list_find (λ plug, name plug = pluginName) (pluginsOf kind s)
  = Some (i, plugin) →
  let s0 := set_pluginsOf kind (delete i (pluginsOf kind s)) s in
  unloadPlugin pluginName kind s
  = set_loadedPlugins
      (delete (pluginTag (src plugin) s0).1 (loadedPlugins s))
      (pluginTag (src plugin) s0).2.
Proof.
  intros Hfind s0. unfold unloadPlugin. rewrite Hfind.
  apply list_find_Some in Hfind as (Hlookup & _).
  rewrite spliceCount_one by (by eapply lookup_lt_Some). fold s0.
  destruct (pluginTag_frame (src plugin) s0) as (Hloaded & _).
  destruct (pluginTag (src plugin) s0) as [tag s1]. simpl in *.
  rewrite Hloaded. by destruct kind.
Qed.

Lemma unloadPlugin_cases pluginName kind s :
  unloadPlugin pluginName kind s = s
  ∨ ∃ i plugin,
      list_find (λ plug, name plug = pluginName) (pluginsOf kind s)
      = Some (i, plugin).
Proof.
  unfold unloadPlugin.
  destruct (list_find _ _) as [[i plugin]|]; eauto.
Qed.

Lemma set_pluginsOf_kept kind l s :
  editingKept s (set_pluginsOf kind l s)
  ∧ loadedPlugins (set_pluginsOf kind l s) = loadedPlugins s
  ∧ pluginTags (set_pluginsOf kind l s) = pluginTags s
  ∧ imports (set_pluginsOf kind l s) = imports s
  ∧ customElements (set_pluginsOf kind l s) = customElements s.
Proof. by destruct kind. Qed.

Lemma registryOk_set_pluginsOf kind l s :
  registryOk s → registryOk (set_pluginsOf kind l s).
Proof. intros Hok. by destruct kind. Qed.

Lemma registryOk_unloadPlugin pluginName kind s :
  registryOk s → registryOk (unloadPlugin pluginName kind s).
Proof.
  intros Hok.
  destruct (unloadPlugin_cases pluginName kind s) as [->|(i & plugin & Hfind)];
    [done|].
  rewrite (unloadPlugin_found _ _ _ _ _ Hfind).
  set (s0 := set_pluginsOf kind _ s).
  pose proof (registryOk_pluginTag (src plugin) s0
                (registryOk_set_pluginsOf _ _ _ Hok)) as Hok0.
  destruct (pluginTag_frame (src plugin) s0) as (Hloaded & _).
  intros tag' plugin' Hlookup. simpl in *.
  apply lookup_delete_Some in Hlookup as [_ Hlookup].
  apply Hok0. rewrite Hloaded. unfold s0. by destruct kind.
Qed.

Lemma editingKept_unloadPlugin pluginName kind s :
  editingKept s (unloadPlugin pluginName kind s).
Proof.
  destruct (unloadPlugin_cases pluginName kind s) as [->|(i & plugin & Hfind)];
    [apply editingKept_refl|].
  rewrite (unloadPlugin_found _ _ _ _ _ Hfind).
  set (s0 := set_pluginsOf kind _ s).
  pose proof (editingKept_pluginTag (src plugin) s0) as Hkept.
  destruct (set_pluginsOf_kept kind (delete i (pluginsOf kind s)) s)
    as (Hkept0 & _).
  eapply editingKept_trans; [exact Hkept0|]. exact Hkept.
Qed.

Lemma registryOk_onConfigurePlugin detail s :
  registryOk s → registryOk (stateOf (onConfigurePlugin detail s)).
Proof.
  intros Hok. unfold onConfigurePlugin.
  destruct (ConfigurePluginDetail.config detail) as [config|]; simpl.
  - pose proof (registryOk_loadPlugin config s Hok) as Hok1.
    destruct (loadPlugin config s); simpl in *; [|done].
    by apply registryOk_set_pluginsOf.
  - by apply registryOk_unloadPlugin.
Qed.

Lemma editingKept_onConfigurePlugin detail s :
  editingKept s (stateOf (onConfigurePlugin detail s)).
Proof.
  unfold onConfigurePlugin.
  destruct (ConfigurePluginDetail.config detail) as [config|]; simpl.
  - pose proof (editingKept_loadPlugin config s) as Hkept.
    destruct (loadPlugin config s) as [s1|s1]; simpl in *; [|done].
    eapply editingKept_trans; [exact Hkept|].
    apply set_pluginsOf_kept.
  - apply editingKept_unloadPlugin.
Qed.

(** [loadPlugin] only adds: to the loaded plugins and to the memo. *)
Lemma loadPlugin_grows plugin s :
  loadedPlugins s ⊆ loadedPlugins (stateOf (loadPlugin plugin s))
  ∧ pluginTags s ⊆ pluginTags (stateOf (loadPlugin plugin s)).
Proof.
  rewrite loadPlugin_eq.
  destruct (pluginTag_spec (src plugin) s) as (memo & Hs0 & Hsub & _).
  destruct (pluginTag_frame (src plugin) s) as (Hloaded & _).
  set (tag := (pluginTag (src plugin) s).1) in *.
  set (s0 := (pluginTag (src plugin) s).2) in *.
  assert (pluginTags s ⊆ pluginTags s0) as Hmemo by (by rewrite Hs0).
  case_bool_decide as Hfree; simpl; [by rewrite Hloaded|].
  assert (loadedPlugins s ⊆ <[tag := plugin]> (loadedPlugins s)) as Hins.
  { apply insert_subseteq. by apply eq_None_not_Some. }
  case_bool_decide; simpl; [done|].
  by destruct (resolveURL (src plugin)).
Qed.

Lemma loadPlugin_normal plugin s :
  is_Some (resolveURL (src plugin)) → ∃ s', loadPlugin plugin s = Normal s'.
Proof.
  intros [url Hurl]. rewrite loadPlugin_eq, Hurl.
  case_bool_decide; [eauto|]. case_bool_decide; eauto.
Qed.

Lemma loadedIn_grows p s s' :
  loadedPlugins s ⊆ loadedPlugins s' → pluginTags s ⊆ pluginTags s' →
  loadedIn p s → loadedIn p s'.
Proof.
  intros Hloaded Hmemo (tag & Htag & [q Hq]). exists tag. split.
  - by eapply lookup_weaken.
  - exists q. by eapply lookup_weaken.
Qed.

Lemma loadedIn_tag p s :
  loadedIn p s → is_Some (loadedPlugins s !! (pluginTag (src p) s).1).
Proof.
  intros (tag & Htag & Hloaded). by rewrite (pluginTag_hit _ _ _ Htag).
Qed.

Lemma loadEach_spec (l : list Plugin) : ∀ s,
  let s' := stateOf (loadEach l s) in
  (registryOk s → registryOk s')
  ∧ editingKept s s'
  ∧ loadedPlugins s ⊆ loadedPlugins s'
  ∧ pluginTags s ⊆ pluginTags s'
  ∧ plugins_menu s' = plugins_menu s ∧ plugins_editor s' = plugins_editor s
  ∧ (loadEach l s = Normal s' → ∀ p, p ∈ l → loadedIn p s')
  ∧ ((∀ p, p ∈ l → is_Some (resolveURL (src p))) → loadEach l s = Normal s').
Proof.
  induction l as [|p l IH]; intros s; simpl.
  { repeat split; try done. intros _ p Hp. by apply elem_of_nil in Hp. }
  pose proof (registryOk_loadPlugin p s) as Hok.
  pose proof (editingKept_loadPlugin p s) as Hkept.
  destruct (loadPlugin_grows p s) as [Hloaded Hmemo].
  destruct (loadPlugin_loaded p s) as (Htag & Hin & _).
  pose proof (loadPlugin_normal p s) as Hnormal.
  assert (plugins_menu (stateOf (loadPlugin p s)) = plugins_menu s
          ∧ plugins_editor (stateOf (loadPlugin p s)) = plugins_editor s)
    as [Hmenu Heditor].
  { rewrite loadPlugin_eq. unfold pluginTag.
    destruct (pluginTags s !! src p); simpl;
      repeat case_bool_decide; simpl; try done;
      by destruct (resolveURL (src p)). }
  destruct (loadPlugin p s) as [s1|s1]; simpl in *.
  - destruct (IH s1) as (IHok & IHkept & IHloaded & IHmemo & IHmenu
                         & IHeditor & IHin & IHnormal).
    split; [tauto|]. split; [by eapply editingKept_trans|].
    split; [by etrans|]. split; [by etrans|].
    split; [congruence|]. split; [congruence|]. split.
    + intros Hrun q Hq. apply elem_of_cons in Hq as [->|Hq].
      * eapply loadedIn_grows; [exact IHloaded | exact IHmemo |].
        by exists (pluginTag (src p) s).1.
      * by apply IHin.
    + intros Hurls. apply IHnormal. intros q Hq. apply Hurls. by right.
  - repeat split; try tauto; try apply Hkept; try done.
    intros Hurls. destruct Hnormal as [s' Hs']; [|done].
    apply Hurls. by left.
Qed.

Lemma loadValues_spec (values : list (option (list Plugin))) : ∀ s,
  let s' := stateOf (loadValues values s) in
  (registryOk s → registryOk s')
  ∧ editingKept s s'
  ∧ loadedPlugins s ⊆ loadedPlugins s'
  ∧ pluginTags s ⊆ pluginTags s'
  ∧ plugins_menu s' = plugins_menu s ∧ plugins_editor s' = plugins_editor s
  ∧ (loadValues values s = Normal s' →
       ∀ l p, Some l ∈ values → p ∈ l → loadedIn p s')
  ∧ ((∀ v, v ∈ values →
        ∃ l, v = Some l ∧ ∀ p, p ∈ l → is_Some (resolveURL (src p))) →
       loadValues values s = Normal s').
Proof.
  induction values as [|v values IH]; intros s; simpl.
  { repeat split; try done. intros _ l p Hl. by apply elem_of_nil in Hl. }
  destruct v as [l|]; simpl.
  2:{ repeat split; try done.
      intros Hall. destruct (Hall None) as (l & Hl & _); [by left | done]. }
  destruct (loadEach_spec l s) as (Hok & Hkept & Hloaded & Hmemo & Hmenu
                                   & Heditor & Hin & Hnormal).
  destruct (loadEach l s) as [s1|s1]; simpl in *.
  - destruct (IH s1) as (IHok & IHkept & IHloaded & IHmemo & IHmenu
                         & IHeditor & IHin & IHnormal).
    split; [tauto|]. split; [by eapply editingKept_trans|].
    split; [by etrans|]. split; [by etrans|].
    split; [congruence|]. split; [congruence|]. split.
    + intros Hrun l' q Hl' Hq. apply elem_of_cons in Hl' as [Heq|Hl'].
      * injection Heq as ->.
        eapply loadedIn_grows; [exact IHloaded | exact IHmemo |].
        by apply Hin.
      * by eapply IHin.
    + intros Hall. apply IHnormal. intros v Hv. apply Hall. by right.
  - repeat split; try tauto; try apply Hkept; try done.
    intros Hall. destruct (Hall (Some l)) as (l' & Heq & Hurls); [by left|].
    injection Heq as <-. by apply Hnormal.
Qed.

Lemma set_plugins_kept (plugins : PartialPluginSet) s :
  (registryOk s → registryOk (stateOf (set_plugins plugins s)))
  ∧ editingKept s (stateOf (set_plugins plugins s)).
Proof.
  unfold set_plugins.
  destruct (loadValues_spec (snd <$> plugins) s) as (Hok & Hkept & _).
  destruct (loadValues (snd <$> plugins) s) as [s1|s1]; simpl in *; [|done].
  split; [|done]. intros Hs. by apply Hok in Hs.
Qed.

(** X8. The [plugins] setter never unloads: what was loaded stays loaded,
    throw or not. When every value of the given object is an array and
    every [src] resolves to a URL, the setter completes, the lists are the
    given ones (empty where the object has no such key), and every plugin
    given is loaded under the tag of its [src]. *)
Theorem set_plugins_loads (plugins : PartialPluginSet) s :
  loadedPlugins s ⊆ loadedPlugins (stateOf (set_plugins plugins s))
  ∧ ((∀ kind v, (kind, v) ∈ plugins →
        ∃ l, v = Some l ∧ ∀ p, p ∈ l → is_Some (resolveURL (src p))) →
     ∃ s',
       set_plugins plugins s = Normal s'
       ∧ plugins_menu s' = spreadOver Kind.menu plugins
       ∧ plugins_editor s' = spreadOver Kind.editor plugins
       ∧ ∀ kind l p, (kind, Some l) ∈ plugins → p ∈ l →
           is_Some (loadedPlugins s' !! (pluginTag (src p) s').1)).
Proof.
  unfold set_plugins.
  destruct (loadValues_spec (snd <$> plugins) s)
    as (_ & _ & Hloaded & _ & _ & _ & Hin & Hnormal).
  split.
  { by destruct (loadValues (snd <$> plugins) s). }
  intros Hall.
  rewrite Hnormal; cycle 1.
  { intros v Hv. apply list_elem_of_fmap in Hv as ([kind v'] & -> & Hv).
    by eapply Hall. }
  rewrite Hnormal in Hin; cycle 1.
  { intros v Hv. apply list_elem_of_fmap in Hv as ([kind v'] & -> & Hv).
    by eapply Hall. }
  eexists. split; [done|]. split; [done|]. split; [done|].
  intros kind l p Hl Hp.
  destruct (Hin eq_refl l p) as (tag & Htag & Hq); [|done|].
  { apply list_elem_of_fmap. by exists (kind, Some l). }
  apply loadedIn_tag. by exists tag.
Qed.

Lemma set_pluginsOf_same kind s : set_pluginsOf kind (pluginsOf kind s) s = s.
Proof. by destruct kind, s. Qed.

Lemma set_pluginsOf_twice kind l l' s :
  set_pluginsOf kind l (set_pluginsOf kind l' s) = set_pluginsOf kind l s.
Proof. by destruct kind. Qed.

Lemma pluginsOf_set kind l s : pluginsOf kind (set_pluginsOf kind l s) = l.
Proof. by destruct kind. Qed.

(** Loading a plugin whose tag is free and whose [src] resolves. *)
Lemma loadPlugin_fresh p s :
  let tag := (pluginTag (src p) s).1 in
  loadedPlugins s !! tag = None →
  is_Some (resolveURL (src p)) →
  ∃ s1,
    loadPlugin p s = Normal s1
    ∧ loadedPlugins s1 = <[tag := p]> (loadedPlugins s)
    ∧ pluginTags s1 !! src p = Some tag
    ∧ plugins_menu s1 = plugins_menu s
    ∧ plugins_editor s1 = plugins_editor s
    ∧ editingKept s s1.
Proof.
  intros tag Hfree [url Hurl]. rewrite loadPlugin_eq, Hurl. fold tag.
  destruct (pluginTag_spec (src p) s) as (memo & -> & _ & Hmemo).
  fold tag in Hmemo.
  rewrite bool_decide_eq_false_2 by (rewrite Hfree; by intros [? ?]).
  case_bool_decide; eexists; (split; [done|]); simpl; by repeat split.
Qed.

(** Unloading the plugin that was pushed last, by its name. *)
Lemma unloadPlugin_pushed p kind tag s :
  list_find (λ plug, name plug = name p) (pluginsOf kind s) = None →
  pluginTags s !! src p = Some tag →
  unloadPlugin (name p) kind
    (set_pluginsOf kind (Js.push (pluginsOf kind s) p) s)
  = set_loadedPlugins (delete tag (loadedPlugins s)) s.
Proof.
  intros Hfresh Htag.
  assert (list_find (λ plug, name plug = name p)
            (pluginsOf kind (set_pluginsOf kind (Js.push (pluginsOf kind s) p) s))
          = Some (length (pluginsOf kind s), p)) as Hfind.
  { rewrite pluginsOf_set. apply list_find_app_Some. right.
    split; [lia|]. split; [done|].
    rewrite Nat.sub_diag. simpl. by rewrite decide_True. }
  rewrite (unloadPlugin_found _ _ _ _ _ Hfind).
  rewrite pluginsOf_set. unfold Js.push.
  rewrite (delete_middle (pluginsOf kind s) [] p), app_nil_r.
  rewrite set_pluginsOf_twice, set_pluginsOf_same.
  rewrite (pluginTag_hit _ _ _ Htag). by destruct kind.
Qed.

(** X9. Configuring a plugin and then configuring it away, by the same
    name and kind, gives back the two plugin lists and the loaded plugins,
    provided no listed plugin of that kind had the name, the tag was not
    loaded, and the [src] resolves to a URL. An import that was started
    stays started. *)
Theorem configure_round_trip p kind s :
  list_find (λ plug, name plug = name p) (pluginsOf kind s) = None →
  loadedPlugins s !! (pluginTag (src p) s).1 = None →
  is_Some (resolveURL (src p)) →
  ∃ s1 s2,
    onConfigurePlugin (newConfigurePluginEvent (name p) kind (Some p)) s
    = Normal s1
    ∧ pluginsOf kind s1 = pluginsOf kind s ++ [p]
    ∧ loadedPlugins s1 !! (pluginTag (src p) s).1 = Some p
    ∧ onConfigurePlugin (newConfigurePluginEvent (name p) kind None) s1
      = Normal s2
    ∧ plugins_menu s2 = plugins_menu s
    ∧ plugins_editor s2 = plugins_editor s
    ∧ loadedPlugins s2 = loadedPlugins s
    ∧ imports s2 = imports s1
    ∧ editingKept s s2.
Proof.
  intros Hfresh Hfree Hurl.
  destruct (loadPlugin_fresh p s Hfree Hurl)
    as (sL & HsL & Hloaded & Htag & Hmenu & Heditor & Hkept).
  assert (pluginsOf kind sL = pluginsOf kind s) as Hlist
    by (by destruct kind).
  unfold onConfigurePlugin, newConfigurePluginEvent. simpl. rewrite HsL.
  do 2 eexists. split; [done|].
  split; [by rewrite pluginsOf_set, Hlist|].
  split; [destruct kind; simpl; by rewrite Hloaded, lookup_insert_eq|].
  rewrite (unloadPlugin_pushed p kind _ sL) by (by rewrite ?Hlist).
  split; [done|]. simpl.
  rewrite Hloaded, delete_insert_id by done.
  split; [done|]. split; [done|]. split; [done|].
  split; [by destruct kind|]. exact Hkept.
Qed.

(** X10. When the [src] of a plugin is no URL (the constructor throws),
    its tag is free and no element is defined under it,
    [onConfigurePlugin] throws with the plugin already in [loadedPlugins]
    but in neither list; no import is started. *)
Theorem configure_bad_url (detail : ConfigurePluginDetail.t) p s :
  ConfigurePluginDetail.config detail = Some p →
  loadedPlugins s !! (pluginTag (src p) s).1 = None →
  (pluginTag (src p) s).1 ∉ customElements s →
  resolveURL (src p) = None →
  ∃ s',
    onConfigurePlugin detail s = TypeError s'
    ∧ loadedPlugins s' !! (pluginTag (src p) s).1 = Some p
    ∧ plugins_menu s' = plugins_menu s
    ∧ plugins_editor s' = plugins_editor s
    ∧ imports s' = imports s.
Proof.
  intros Hconfig Hfree Hundefined Hurl.
  unfold onConfigurePlugin. rewrite Hconfig, loadPlugin_eq, Hurl.
  destruct (pluginTag_spec (src p) s) as (memo & -> & _ & _).
  rewrite bool_decide_eq_false_2 by (rewrite Hfree; by intros [? ?]).
  rewrite bool_decide_eq_false_2 by done.
  eexists. split; [done|]. simpl. by rewrite lookup_insert_eq.
Qed.

(** X11. [unloadPlugin] deletes the tag of the plugin it found although
    another listed plugin has the same [src]: that one stays in its list,
    and its tag is no key of [loadedPlugins] any more. *)
Theorem unload_shared_src pluginName kind kind' (i j : nat) p q s :
  list_find (λ plug, name plug = pluginName) (pluginsOf kind s)
  = Some (i, p) →
  pluginsOf kind' s !! j = Some q →
  kind' ≠ kind ∨ j ≠ i →
  src q = src p →
  let s' := unloadPlugin pluginName kind s in
  q ∈ pluginsOf kind' s'
  ∧ loadedPlugins s' !! (pluginTag (src q) s').1 = None.
Proof.
  intros Hfind Hq Hother Hsrc s'. unfold s'.
  rewrite (unloadPlugin_found _ _ _ _ _ Hfind).
  set (s0 := set_pluginsOf kind (delete i (pluginsOf kind s)) s).
  pose proof (pluginTag_memo (src p) s0) as Hmemo.
  destruct (pluginTag_spec (src p) s0) as (memo & Hs0 & _ & _).
  set (tag := (pluginTag (src p) s0).1) in *.
  rewrite Hs0 in *. clear Hs0. split.
  - assert (q ∈ pluginsOf kind' s0) as Hin.
    { unfold s0. destruct (decide (kind' = kind)) as [->|Hkind].
      - rewrite pluginsOf_set. destruct Hother as [?|Hj]; [done|].
        apply list_elem_of_lookup.
        destruct (decide (j < i)%nat).
        + exists j. by rewrite list_lookup_delete_lt.
        + exists (j - 1)%nat. rewrite list_lookup_delete_ge by lia.
          by replace (S (j - 1)) with j by lia.
      - apply list_elem_of_lookup. exists j.
        by destruct kind, kind'. }
    by destruct kind'.
  - rewrite Hsrc.
    rewrite (pluginTag_hit _ tag) by done. simpl. apply lookup_delete_eq.
Qed.

End Configuration.

(** ** Documents *)
Section Documents.
Context `{Platform}.
Implicit Types (s : OpenSCD) (entry : LogEntry).

Lemma handleOpenDoc_opened (name : string) (document : Node) s :
  name ≠ "__proto__"%string →
  handleOpenDoc name document s = Some (opened name document s).
Proof.
  intros Hname. unfold handleOpenDoc. simpl.
  by destruct (String.eqb_spec name "__proto__").
Qed.

Lemma undoStep_opened name document entry s :
  undoStep entry (opened name document s)
  = opened name document (undoStep entry s).
Proof.
  unfold undoStep, runHandleEdit. simpl.
  by destruct (handleEdit (LogEntry.undo entry) (dom s)).
Qed.

Lemma redoStep_opened name document entry s :
  redoStep entry (opened name document s)
  = opened name document (redoStep entry s).
Proof.
  unfold redoStep, runHandleEdit. simpl.
  by destruct (handleEdit (LogEntry.redo entry) (dom s)).
Qed.

Lemma undo_opened name document (k : nat) : ∀ n s,
  Z.to_nat n = k →
  undo n (opened name document s) = openedIn name document (undo n s).
Proof.
  induction k as [|k IH]; intros n s Hk.
  - by rewrite !(undo_exhausted n) by lia.
  - rewrite (undo_body n s), (undo_body n (opened name document s)).
    change (canUndo (opened name document s)) with (canUndo s).
    change (history (opened name document s)) with (history s).
    change (last (opened name document s)) with (last s).
    destruct (negb (canUndo s) || (n <? 1)); [done|].
    destruct (Js.at_ (history s) (last s)) as [entry|]; [|done].
    rewrite undoStep_opened. case_decide; [|done].
    apply IH. lia.
Qed.

Lemma redo_opened name document (k : nat) : ∀ n s,
  Z.to_nat n = k →
  redo n (opened name document s) = openedIn name document (redo n s).
Proof.
  induction k as [|k IH]; intros n s Hk.
  - by rewrite !(redo_exhausted n) by lia.
  - rewrite (redo_body n s), (redo_body n (opened name document s)).
    change (canRedo (opened name document s)) with (canRedo s).
    change (history (opened name document s)) with (history s).
    change (editCount (opened name document s)) with (editCount s).
    destruct (negb (canRedo s) || (n <? 1)); [done|].
    destruct (Js.at_ (history s) (editCount s)) as [entry|]; [|done].
    rewrite redoStep_opened. case_decide; [|done].
    apply IH. lia.
Qed.

(** X12. After [handleOpenDoc] for a name other than ["__proto__"] the
    accessor [doc] returns the document just opened, whatever was stored
    under the name before; every other name reads as it did, and the
    history, the DOM and the plugins are untouched. *)
Theorem open_then_doc (name : string) (document : Node) s :
  name ≠ "__proto__"%string →
  ∃ s',
    handleOpenDoc name document s = Some s'
    ∧ docName s' = name
    ∧ doc s' = Js.Return (Js.Own document)
    ∧ (∀ other, other ≠ name → Js.get (docs s') other = Js.get (docs s) other)
    ∧ history s' = history s ∧ editCount s' = editCount s
    ∧ docVersion s' = docVersion s ∧ dom s' = dom s
    ∧ registryKept s s'.
Proof.
  intros Hname. rewrite handleOpenDoc_opened by done.
  eexists. split; [done|]. split; [done|]. split.
  - unfold doc, Js.get. simpl. by rewrite lookup_insert_eq.
  - split; [|by repeat split].
    intros other Hother. unfold Js.get. simpl.
    by rewrite lookup_insert_ne by congruence.
Qed.

(** X13. The history is not per document: opening a document (of a name
    other than ["__proto__"]) before [undo(n)] or [redo(n)] gives the state
    that opening it afterwards gives. *)
Theorem open_commutes_with_undo_redo (name : string) (document : Node)
    (n : Z) s :
  name ≠ "__proto__"%string →
  ∃ s1,
    handleOpenDoc name document s = Some s1
    ∧ handleOpenDoc name document (stateOf (undo n s))
      = Some (stateOf (undo n s1))
    ∧ handleOpenDoc name document (stateOf (redo n s))
      = Some (stateOf (redo n s1)).
Proof.
  intros Hname. rewrite !handleOpenDoc_opened by done.
  eexists. split; [done|].
  rewrite (undo_opened name document (Z.to_nat n)) by done.
  rewrite (redo_opened name document (Z.to_nat n)) by done.
  by destruct (undo n s), (redo n s).
Qed.

End Documents.

(** ** Wizards *)
Section Wizards.
Context `{Platform}.
Implicit Types (sh : Shell) (wizard : WizardRequest)
  (l : list WizardRequest).

Lemma indexOf_absent wizard l : wizard ∉ l → JsArray.indexOf l wizard = -1.
Proof.
  intros Habsent. unfold JsArray.indexOf.
  destruct (list_find _ l) as [[i w]|] eqn:Hfind; [|done].
  apply list_find_Some in Hfind as (Hlookup & -> & _).
  destruct Habsent. by eapply list_elem_of_lookup_2.
Qed.

Lemma indexOf_first wizard l1 l2 :
  wizard ∉ l1 →
  JsArray.indexOf (l1 ++ wizard :: l2) wizard = Z.of_nat (length l1).
Proof.
  intros Habsent. unfold JsArray.indexOf.
  assert (list_find (λ y, y = wizard) (l1 ++ wizard :: l2)
          = Some (length l1, wizard)) as ->; [|done].
  apply list_find_app_Some. right. split; [lia|]. split.
  - apply list_find_None, Forall_forall. by intros w Hw ->.
  - rewrite Nat.sub_diag. simpl. by rewrite decide_True.
Qed.

(** [splice(-1, 1)] removes the last element, if there is one. *)
Lemma spliceCount_last {A} (arr : list A) :
  JsArray.spliceCount arr (-1) 1 = removelast arr.
Proof.
  unfold JsArray.spliceCount, Js.actualStart.
  change (-1 <? 0) with true. cbv iota.
  rewrite removelast_firstn_len.
  set (len := Z.of_nat (length arr)).
  replace (Z.to_nat ((len + -1) `max` 0)) with (Init.Nat.pred (length arr))
    by lia.
  rewrite drop_ge, app_nil_r; [done | lia].
Qed.

(** X14. [closeWizard] takes the first occurrence of the wizard out of the
    workflow; for a wizard that is not in the workflow it takes out the
    last one ([indexOf] answers -1, and [splice(-1, 1)] counts from the
    end), and it leaves an empty workflow empty. *)
Theorem closeWizard_removes wizard sh :
  (wizard ∉ workflow sh →
     workflow (closeWizard wizard sh) = removelast (workflow sh))
  ∧ (∀ l1 l2, workflow sh = l1 ++ wizard :: l2 → wizard ∉ l1 →
       workflow (closeWizard wizard sh) = l1 ++ l2).
Proof.
  split.
  - intros Habsent. unfold closeWizard. simpl.
    by rewrite indexOf_absent, spliceCount_last.
  - intros l1 l2 Hsplit Habsent. unfold closeWizard. simpl.
    rewrite Hsplit, indexOf_first by done.
    rewrite spliceCount_one by (rewrite length_app; simpl; lia).
    apply delete_middle.
Qed.

(** X15. A wizard request followed by the closing of that wizard leaves
    the element as it was, when the wizard is a sub-wizard or was not in
    the workflow already. *)
Theorem wizard_round_trip wizard sh :
  subWizard wizard = Some true ∨ wizard ∉ workflow sh →
  closeWizard wizard (onWizard wizard sh) = sh.
Proof.
  intros Hcase. destruct sh as [s index l]. unfold closeWizard, onWizard.
  simpl in *. f_equal.
  destruct (subWizard wizard) as [[|]|] eqn:Hsub.
  - unfold JsArray.unshift.
    change (wizard :: l) with ([] ++ wizard :: l).
    rewrite (indexOf_first wizard [] l) by apply not_elem_of_nil.
    by rewrite (spliceCount_one _ (length (@nil WizardRequest)))
      by (simpl; lia).
  - destruct Hcase as [?|Habsent]; [done|]. unfold Js.push.
    rewrite indexOf_first by done.
    rewrite spliceCount_one by (rewrite length_app; simpl; lia).
    by rewrite delete_middle, app_nil_r.
  - destruct Hcase as [?|Habsent]; [done|]. unfold Js.push.
    rewrite indexOf_first by done.
    rewrite spliceCount_one by (rewrite length_app; simpl; lia).
    by rewrite delete_middle, app_nil_r.
Qed.

End Wizards.

(** ** Rendered editors *)
Section Editors.
Context `{Platform}.
Implicit Types (s : OpenSCD) (sh : Shell) (p : Plugin)
  (r : RenderedPlugin.t).

(** The memo is all [renderEach] changes, and it only grows; every plugin
    rendered is an active one of the list, under the tag memoised for its
    [src]. *)
Lemma renderEach_spec (l : list Plugin) : ∀ s,
  (∃ memo, (renderEach l s).2 = set_pluginTags memo s ∧ pluginTags s ⊆ memo)
  ∧ ∀ r, Some r ∈ (renderEach l s).1 →
      ∃ p, p ∈ l ∧ active p = Some true
           ∧ pluginTags (renderEach l s).2 !! src p
             = Some (RenderedPlugin.tagName r)
           ∧ RenderedPlugin.isDisabled r = requiresMissingDoc p.
Proof.
  induction l as [|p l IH]; intros s; simpl.
  { split.
    - exists (pluginTags s). by rewrite set_pluginTags_same.
    - intros r Hr. by apply elem_of_nil in Hr. }
  unfold renderPlugin.
  destruct (active p) as [[|]|] eqn:Hactive.
  - destruct (pluginTag_spec (src p) s) as (memo1 & Hs1 & Hsub1 & Hmemo1).
    destruct (pluginTag (src p) s) as [tag s1]. simpl in *. subst s1.
    destruct (IH (set_pluginTags memo1 s)) as ((memo & Hs' & Hsub) & Hin).
    destruct (renderEach l (set_pluginTags memo1 s)) as [rs s'].
    simpl in *. subst s'. split.
    + exists memo. split; [done|]. by etrans.
    + intros r Hr. apply elem_of_cons in Hr as [Heq|Hr].
      * injection Heq as ->. exists p. simpl.
        split; [by left|]. split; [done|]. split; [|done].
        by eapply lookup_weaken.
      * destruct (Hin r Hr) as (q & Hq & ?). exists q. split; [by right|done].
  - destruct (IH s) as (Hmemo & Hin).
    destruct (renderEach l s) as [rs s']. simpl in *. split; [done|].
    intros r Hr. apply elem_of_cons in Hr as [?|Hr]; [done|].
    destruct (Hin r Hr) as (q & Hq & ?). exists q. split; [by right|done].
  - destruct (IH s) as (Hmemo & Hin).
    destruct (renderEach l s) as [rs s']. simpl in *. split; [done|].
    intros r Hr. apply elem_of_cons in Hr as [?|Hr]; [done|].
    destruct (Hin r Hr) as (q & Hq & ?). exists q. split; [by right|done].
Qed.

(** X16. The [editor] getter answers with the empty string or with the
    tag of a plugin of the editor list that is active and not disabled
    (it does not require a document while [docName] is empty). Reading it
    changes nothing but the tag memo, which only grows. *)
Theorem editor_is_enabled sh :
  let tag := (editor sh).1 in
  let sh' := (editor sh).2 in
  (tag = EmptyString
   ∨ ∃ p, p ∈ plugins_editor (element sh)
          ∧ active p = Some true
          ∧ requiresMissingDoc p (docName (element sh)) = false
          ∧ pluginTags (element sh') !! src p = Some tag)
  ∧ (∃ memo, element sh' = set_pluginTags memo (element sh)
             ∧ pluginTags (element sh) ⊆ memo)
  ∧ editorIndex sh' = editorIndex sh
  ∧ workflow sh' = workflow sh.
Proof.
  unfold editor, editors.
  destruct (renderEach_spec (plugins_editor (element sh)) (element sh))
    as ((memo & Hs' & Hsub) & Hin).
  destruct (renderEach (plugins_editor (element sh)) (element sh))
    as [rs s']. simpl in *. subst s'.
  set (enabled := base.filter _ (omap id rs)).
  assert (∀ e, e ∈ enabled →
            ∃ p, p ∈ plugins_editor (element sh)
                 ∧ active p = Some true
                 ∧ requiresMissingDoc p (docName (element sh)) = false
                 ∧ memo !! src p = Some (RenderedPlugin.tagName e))
    as Henabled.
  { intros e He. apply list_elem_of_filter in He as [Hon He].
    apply list_elem_of_omap in He as ([r|] & Hr & Heq); [|done].
    injection Heq as ->.
    destruct (Hin e Hr) as (p & Hp & Hactive & Htag & Hdisabled).
    exists p. simpl in *. rewrite Hdisabled in Hon. done. }
  case_bool_decide; simpl.
  { split; [by left|]. eauto. }
  destruct (Js.at_ enabled (editorIndex sh)) as [e|] eqn:He; simpl.
  - split; [|eauto]. right. apply Henabled.
    unfold Js.at_ in He. destruct (editorIndex sh <? 0); [done|].
    by eapply list_elem_of_lookup_2.
  - split; [by left|]. eauto.
Qed.

End Editors.

(** ** Hot keys, and everything together *)
Section Machine.
Context `{Platform}.
Implicit Types (s : OpenSCD) (sh : Shell).

Lemma registryKept_refl s : registryKept s s.
Proof. by repeat split. Qed.

Lemma undo_frame (n : Z) s :
  cursorInRange s →
  ∃ s', undo n s = Normal s'
        ∧ history s' = history s ∧ cursorInRange s'
        ∧ registryKept s s'
        ∧ docs s' = docs s ∧ docName s' = docName s.
Proof.
  intros Hs. destruct (Z.lt_ge_cases n 1) as [Hn|Hn].
  - exists s. rewrite undo_exhausted by lia.
    split; [done|]. split; [done|]. split; [done|].
    split; [apply registryKept_refl|done].
  - rewrite (undo_steps (Z.to_nat (Z.min n (editCount s))))
      by (done || destruct Hs; lia).
    eexists. split; [done|]. split; [done|]. split.
    + destruct Hs. split; simpl; lia.
    + by repeat split.
Qed.

Lemma redo_frame (n : Z) s :
  cursorInRange s →
  ∃ s', redo n s = Normal s'
        ∧ history s' = history s ∧ cursorInRange s'
        ∧ registryKept s s'
        ∧ docs s' = docs s ∧ docName s' = docName s.
Proof.
  intros Hs. destruct (Z.lt_ge_cases n 1) as [Hn|Hn].
  - exists s. rewrite redo_exhausted by lia.
    split; [done|]. split; [done|]. split; [done|].
    split; [apply registryKept_refl|done].
  - rewrite (redo_steps (Z.to_nat
      (Z.min n (Z.of_nat (length (history s)) - editCount s))))
      by (done || destruct Hs; lia).
    eexists. split; [done|]. split; [done|]. split.
    + destruct Hs. split; simpl; lia.
    + by repeat split.
Qed.

Lemma controlAction_spec (c : Control) s :
  cursorInRange s →
  ∃ s', controlAction c s = Normal s'
        ∧ history s' = history s ∧ cursorInRange s'
        ∧ registryKept s s'
        ∧ docs s' = docs s ∧ docName s' = docName s.
Proof.
  intros Hs. destruct c; simpl.
  - by apply undo_frame.
  - by apply redo_frame.
  - exists s. split; [done|]. split; [done|]. split; [done|].
    split; [apply registryKept_refl|done].
  - exists s. split; [done|]. split; [done|]. split; [done|].
    split; [apply registryKept_refl|done].
Qed.

(** X17. With the cursor in range a key press changes neither the
    entries of the history nor the documents nor the plugins, throw or
    not, and the cursor stays in range. Without Ctrl, or with a key that
    is no hot key, it changes nothing at all and the default is not
    prevented; Ctrl+z is [undo()] and Ctrl+y and Ctrl+Z are [redo()],
    which complete, with the default prevented. *)
Theorem key_press_keeps_history (ctrlKey : bool) (key : string) s :
  cursorInRange s →
  let s' := stateOf (handleKeyPress ctrlKey key s).1 in
  history s' = history s ∧ cursorInRange s'
  ∧ registryKept s s'
  ∧ docs s' = docs s ∧ docName s' = docName s
  ∧ (ctrlKey = false ∨ hotkeys key = None →
       handleKeyPress ctrlKey key s = (Normal s, false))
  ∧ (ctrlKey = true → hotkeys key = Some UndoControl →
       ∃ s1, undo 1 s = Normal s1
             ∧ handleKeyPress ctrlKey key s = (Normal s1, true))
  ∧ (ctrlKey = true → hotkeys key = Some RedoControl →
       ∃ s1, redo 1 s = Normal s1
             ∧ handleKeyPress ctrlKey key s = (Normal s1, true)).
Proof.
  intros Hs. unfold handleKeyPress.
  destruct ctrlKey; simpl.
  2:{ do 2 (split; [done|]). split; [apply registryKept_refl|].
      do 3 (split; [done|]). by split. }
  destruct (hotkeys key) as [c|]; simpl.
  2:{ do 2 (split; [done|]). split; [apply registryKept_refl|].
      do 3 (split; [done|]). by split. }
  destruct (controlAction_spec c s Hs)
    as (s' & Hc & Hhistory & Hs' & Hkept & Hdocs & Hname).
  rewrite Hc. simpl. do 5 (split; [done|]).
  split; [by intros [?|?]|].
  split; intros _ [= ->]; simpl in Hc; eauto.
Qed.

Lemma cursorInRange_kept s s' :
  editingKept s s' → cursorInRange s → cursorInRange s'.
Proof. intros (Hh & Hc & _). unfold cursorInRange. by rewrite Hh, Hc. Qed.

Lemma registryOk_kept s s' :
  registryKept s s' → registryOk s → registryOk s'.
Proof.
  intros (_ & _ & Hloaded & Htags & _) Hok tag plugin.
  rewrite Hloaded, Htags. apply Hok.
Qed.

Lemma step_wellFormed (st : Step) sh :
  wellFormed sh → opensProto st = false →
  ∃ sh', step st sh = Some sh' ∧ wellFormed sh'.
Proof.
  intros [Hrange Hok] Hproto. destruct sh as [s index wf]. simpl in *.
  destruct st as [ctrlKey key|name document|e|d|wizard|wizard|detail|n|n
                  |plugin|pluginName kind|plugins|]; simpl in *.
  - destruct (key_press_keeps_history ctrlKey key s Hrange)
      as (_ & Hrange' & Hkept & _).
    eexists. split; [done|]. split; [done|]. by eapply registryOk_kept.
  - rewrite handleOpenDoc_opened
      by (by destruct (String.eqb_spec name "__proto__")).
    eexists. split; [done|]. by split.
  - eexists. split; [done|]. split; simpl.
    + by apply handleEditEvent_inRange.
    + rewrite handleEditEvent_eq. exact Hok.
  - eexists. split; [done|]. split; simpl.
    + by apply handleEditEventV2_inRange.
    + rewrite handleEditEventV2_eq. exact Hok.
  - eexists. split; [done|]. by split.
  - eexists. split; [done|]. by split.
  - eexists. split; [done|]. split; simpl.
    + eapply cursorInRange_kept; [apply editingKept_onConfigurePlugin|done].
    + by apply registryOk_onConfigurePlugin.
  - eexists. split; [done|]. split; simpl.
    + destruct (undo_frame n s Hrange) as (s' & -> & _ & ? & _). done.
    + destruct (undo_frame n s Hrange) as (s' & -> & _ & _ & Hkept & _).
      by eapply registryOk_kept.
  - eexists. split; [done|]. split; simpl.
    + destruct (redo_frame n s Hrange) as (s' & -> & _ & ? & _). done.
    + destruct (redo_frame n s Hrange) as (s' & -> & _ & _ & Hkept & _).
      by eapply registryOk_kept.
  - eexists. split; [done|]. split; simpl.
    + eapply cursorInRange_kept; [apply editingKept_loadPlugin|done].
    + by apply registryOk_loadPlugin.
  - eexists. split; [done|]. split; simpl.
    + eapply cursorInRange_kept; [apply editingKept_unloadPlugin|done].
    + by apply registryOk_unloadPlugin.
  - eexists. split; [done|]. split; simpl.
    + eapply cursorInRange_kept; [apply set_plugins_kept|done].
    + by apply set_plugins_kept.
  - eexists. split; [done|].
    destruct (editor_is_enabled (mkShell s index wf))
      as (_ & (memo & Hs' & Hsub) & _).
    unfold wellFormed. rewrite Hs'. simpl. split; [done|].
    by apply registryOk_memo.
Qed.

(** X18. Whatever the element is sent (key presses, the events it
    listens to, calls of its public methods, reads of [editor]), in any
    order and a throwing step included, the cursor stays within the
    history and every entry of [loadedPlugins] stays under the tag
    memoised for its own [src]; the one exception is the opening of a
    document under the name ["__proto__"]. *)
Theorem element_stays_well_formed (sts : list Step) (tree : Dom)
    (tags : gmap string string) (defined : gset string) :
  Forall (λ st, opensProto st = false) sts →
  ∃ sh,
    steps sts (new_Shell tree tags defined) = Some sh
    ∧ cursorInRange (element sh)
    ∧ registryOk (element sh).
Proof.
  intros Hsts.
  assert (wellFormed (new_Shell tree tags defined)) as Hinit.
  { split; simpl.
    - split; simpl; lia.
    - intros tag plugin Hlookup. simpl in Hlookup.
      by rewrite lookup_empty in Hlookup. }
  revert Hinit. generalize (new_Shell tree tags defined).
  induction Hsts as [|st sts Hst _ IH]; intros sh Hsh; simpl.
  - exists sh. by destruct Hsh.
  - destruct (step_wellFormed st sh Hsh Hst) as (sh' & -> & Hsh').
    by apply IH.
Qed.

(** X19. With the cursor in range, the undo and redo controls are
    disabled exactly when their action would do nothing: a disabled
    control's action returns the state as it is, and the action of an
    enabled undo or redo control moves the cursor by one and raises
    [docVersion] by one. *)
Theorem disabled_means_nothing_to_do (c : Control) s :
  cursorInRange s →
  (controlDisabled c s = true → controlAction c s = Normal s)
  ∧ (controlDisabled c s = false → c = UndoControl ∨ c = RedoControl →
       ∃ s', controlAction c s = Normal s'
             ∧ docVersion s' = docVersion s + 1
             ∧ editCount s'
               = editCount s + (if c is UndoControl then -1 else 1)
             ∧ history s' = history s).
Proof.
  intros Hs. destruct Hs as [Hlo Hhi]. split.
  - destruct c; simpl; intros Hdisabled; try done.
    + apply undo_exhausted. left. apply negb_true_iff in Hdisabled.
      unfold canUndo, last in Hdisabled. apply Z.leb_gt in Hdisabled. lia.
    + apply redo_exhausted. left. apply negb_true_iff in Hdisabled.
      unfold canRedo in Hdisabled. by apply Z.ltb_ge in Hdisabled.
  - intros Henabled [->| ->]; simpl in *.
    + apply negb_false_iff in Henabled.
      unfold canUndo, last in Henabled. apply Z.leb_le in Henabled.
      rewrite (undo_steps 1) by (done || lia).
      eexists. split; [done|]. simpl. by repeat split.
    + apply negb_false_iff in Henabled.
      unfold canRedo in Henabled. apply Z.ltb_lt in Henabled.
      rewrite (redo_steps 1) by (done || lia).
      eexists. split; [done|]. simpl. by repeat split.
Qed.

End Machine.

(** ** The rest of the element at work *)

Lemma undo_composes_witness :
  0 ≤ 1 ∧ 1 ≤ 2
  ∧ undo 2 (stateOf (undo 1 Journal.twoEdits)) = undo 3 Journal.twoEdits.
Proof.
  assert (0 ≤ 1) as Ha by discriminate.
  assert (1 ≤ 2) as Hb by discriminate.
  split; [exact Ha | split; [exact Hb|]].
  exact (undo_composes 1 2 Journal.twoEdits Ha Hb).
Defined.

Lemma redo_composes_witness :
  0 ≤ 1 ∧ 1 ≤ 1
  ∧ redo 1 (stateOf (redo 1 (stateOf (undo 2 Journal.twoEdits))))
    = redo 2 (stateOf (undo 2 Journal.twoEdits)).
Proof.
  assert (0 ≤ 1) as Ha by discriminate.
  assert (1 ≤ 1) as Hb by discriminate.
  split; [exact Ha | split; [exact Hb|]].
  exact (redo_composes 1 1 (stateOf (undo 2 Journal.twoEdits)) Ha Hb).
Defined.

Lemma undo_redo_round_trip_witness :
  cursorInRange Journal.twoEdits
  ∧ 1 ≤ 2 ≤ editCount Journal.twoEdits
  ∧ editCount (stateOf (redo 2 (stateOf (undo 2 Journal.twoEdits)))) = 2
  ∧ docVersion (stateOf (redo 2 (stateOf (undo 2 Journal.twoEdits))))
    = docVersion Journal.twoEdits + 4.
Proof.
  assert (cursorInRange Journal.twoEdits) as Hrange
    by (vm_compute; split; discriminate).
  assert (1 ≤ 2 ≤ editCount Journal.twoEdits) as Hn
    by (vm_compute; split; discriminate).
  split; [exact Hrange | split; [exact Hn|]].
  rewrite (undo_redo_round_trip 2 Journal.twoEdits Hrange Hn).
  split; reflexivity.
Defined.

Lemma legacy_agrees_with_v2_witness :
  cursorInRange Journal.fresh
  ∧ Js.toBoolean (Some false) = false
  ∧ from_option LogEntry.title None (list.last (cut Journal.fresh)) = None
  ∧ handleEditEventV2
      (mkEditDetailV2 Journal.insertX None (Some false)) Journal.fresh
    = handleEditEvent (H:=Journal.platform) Journal.insertX Journal.fresh.
Proof.
  assert (cursorInRange Journal.fresh) as Hrange
    by (vm_compute; split; discriminate).
  split; [exact Hrange | split; [reflexivity | split; [reflexivity|]]].
  exact (legacy_agrees_with_v2 (H:=Journal.platform) Journal.insertX
           (Some false) Journal.fresh Hrange eq_refl eq_refl).
Defined.

Lemma version_tells_change_witness :
  cursorInRange Journal.twoEdits
  ∧ ∃ s',
      run [Undo 1; Redo 5; HandleEditEvent (H:=Journal.platform) Journal.renameZ]
        Journal.twoEdits = Normal s'
      ∧ (s' = Journal.twoEdits ∨ docVersion Journal.twoEdits < docVersion s').
Proof.
  assert (cursorInRange Journal.twoEdits) as Hrange
    by (vm_compute; split; discriminate).
  split; [exact Hrange|].
  exact (version_tells_change
           [Undo 1; Redo 5; HandleEditEvent (H:=Journal.platform) Journal.renameZ]
           Journal.twoEdits Hrange).
Defined.

Lemma broken_cursor_throws_witness :
  1 ≤ 1
  ∧ Z.of_nat (length (history Scenes.beyond)) < editCount Scenes.beyond
  ∧ undo 1 Scenes.beyond = TypeError Scenes.beyond
  ∧ editCount Scenes.below < 0
  ∧ redo 1 Scenes.below = TypeError Scenes.below.
Proof.
  assert (1 ≤ 1) as Hn by discriminate.
  assert (Z.of_nat (length (history Scenes.beyond)) < editCount Scenes.beyond)
    as Hbeyond by (vm_compute; reflexivity).
  assert (editCount Scenes.below < 0) as Hbelow by (vm_compute; reflexivity).
  destruct (broken_cursor_throws 1 Scenes.beyond Hn) as [Hundo _].
  destruct (broken_cursor_throws 1 Scenes.below Hn) as [_ Hredo].
  split; [exact Hn | split; [exact Hbeyond|]].
  split; [exact (Hundo Hbeyond) | split; [exact Hbelow | exact (Hredo Hbelow)]].
Defined.

Lemma set_plugins_loads_witness :
  (∀ (kind : Kind.t) (v : option (list Plugin)),
     (kind, v) ∈ (Scenes.twoEditors : list (Kind.t * option (list Plugin))) →
     ∃ l : list Plugin,
       v = Some l
       ∧ ∀ p : Plugin, p ∈ l →
           is_Some (resolveURL (Platform:=Journal.platform) (src p)))
  ∧ ∃ s',
      set_plugins Scenes.twoEditors Journal.fresh = Normal s'
      ∧ plugins_menu s' = []
      ∧ plugins_editor s' = [Journal.pluginA; Journal.pluginB].
Proof.
  assert (∀ (kind : Kind.t) (v : option (list Plugin)),
            (kind, v) ∈ (Scenes.twoEditors
                         : list (Kind.t * option (list Plugin))) →
            ∃ l : list Plugin,
              v = Some l
              ∧ ∀ p : Plugin, p ∈ l →
                  is_Some (resolveURL (Platform:=Journal.platform) (src p)))
    as Hall.
  { intros kind v Hin. destruct v as [l|].
    - exists l. split; [reflexivity|]. intros p _. by eexists.
    - exfalso. unfold Scenes.twoEditors in Hin.
      repeat (apply elem_of_cons in Hin as [Hin|Hin]; [discriminate|]).
      by apply elem_of_nil in Hin. }
  split; [exact Hall|].
  destruct (set_plugins_loads Scenes.twoEditors Journal.fresh) as [_ Hloads].
  destruct (Hloads Hall) as (s' & Hs' & Hmenu & Heditor & _).
  exists s'. split; [exact Hs' | split; [exact Hmenu | exact Heditor]].
Defined.

Lemma configure_round_trip_witness :
  list_find (λ plug, name plug = name Journal.pluginA)
    (pluginsOf Kind.editor Journal.fresh) = None
  ∧ loadedPlugins Journal.fresh
      !! (pluginTag (src Journal.pluginA) Journal.fresh).1 = None
  ∧ is_Some (resolveURL (Platform:=Journal.platform) (src Journal.pluginA))
  ∧ ∃ s1 s2,
      onConfigurePlugin
        (newConfigurePluginEvent "Editor" Kind.editor (Some Journal.pluginA))
        Journal.fresh = Normal s1
      ∧ onConfigurePlugin
          (newConfigurePluginEvent "Editor" Kind.editor None) s1 = Normal s2
      ∧ plugins_editor s2 = []
      ∧ loadedPlugins s2 = ∅.
Proof.
  assert (is_Some (resolveURL (Platform:=Journal.platform)
                     (src Journal.pluginA)))
    as Hurl by (by eexists).
  split; [reflexivity | split; [reflexivity | split; [exact Hurl|]]].
  destruct (configure_round_trip Journal.pluginA Kind.editor Journal.fresh
              eq_refl eq_refl Hurl)
    as (s1 & s2 & Hs1 & _ & _ & Hs2 & _ & Heditor & Hloaded & _).
  exists s1, s2.
  split; [exact Hs1 | split; [exact Hs2 | split; [exact Heditor | exact Hloaded]]].
Defined.

Lemma configure_bad_url_witness :
  loadedPlugins Scenes.strictFresh
    !! (pluginTag (src Scenes.brokenPlugin) Scenes.strictFresh).1 = None
  ∧ ((pluginTag (src Scenes.brokenPlugin) Scenes.strictFresh).1
     ∉ customElements Scenes.strictFresh)
  ∧ resolveURL (Platform:=Scenes.strict) (src Scenes.brokenPlugin) = None
  ∧ ∃ s',
      onConfigurePlugin
        (newConfigurePluginEvent "Broken" Kind.menu (Some Scenes.brokenPlugin))
        Scenes.strictFresh = TypeError s'
      ∧ loadedPlugins s' !! "oscd-phttp://"%string = Some Scenes.brokenPlugin
      ∧ plugins_menu s' = [].
Proof.
  assert ((pluginTag (src Scenes.brokenPlugin) Scenes.strictFresh).1
          ∉ customElements Scenes.strictFresh) as Hundefined
    by apply not_elem_of_empty.
  split; [reflexivity | split; [exact Hundefined | split; [reflexivity|]]].
  destruct (configure_bad_url
              (newConfigurePluginEvent "Broken" Kind.menu
                 (Some Scenes.brokenPlugin))
              Scenes.brokenPlugin Scenes.strictFresh
              eq_refl eq_refl Hundefined eq_refl)
    as (s' & Hs' & Hloaded & Hmenu & _).
  exists s'. split; [exact Hs' | split; [exact Hloaded | exact Hmenu]].
Defined.

Lemma unload_shared_src_witness :
  list_find (λ plug, name plug = "Editor"%string)
    (pluginsOf Kind.editor Scenes.configured) = Some (0%nat, Journal.pluginA)
  ∧ pluginsOf Kind.editor Scenes.configured !! 1%nat = Some Journal.pluginB
  ∧ (Kind.editor ≠ Kind.editor ∨ 1%nat ≠ 0%nat)
  ∧ src Journal.pluginB = src Journal.pluginA
  ∧ Journal.pluginB
    ∈ pluginsOf Kind.editor (unloadPlugin "Editor" Kind.editor Scenes.configured)
  ∧ loadedPlugins (unloadPlugin "Editor" Kind.editor Scenes.configured)
      !! (pluginTag (src Journal.pluginB)
            (unloadPlugin "Editor" Kind.editor Scenes.configured)).1
    = None.
Proof.
  assert (list_find (λ plug, name plug = "Editor"%string)
            (pluginsOf Kind.editor Scenes.configured)
          = Some (0%nat, Journal.pluginA)) as Hfind by (vm_compute; reflexivity).
  assert (pluginsOf Kind.editor Scenes.configured !! 1%nat
          = Some Journal.pluginB) as Hq by (vm_compute; reflexivity).
  assert (Kind.editor ≠ Kind.editor ∨ 1%nat ≠ 0%nat) as Hother
    by (right; discriminate).
  split; [exact Hfind | split; [exact Hq | split; [exact Hother|]]].
  split; [reflexivity|].
  exact (unload_shared_src "Editor" Kind.editor Kind.editor 0 1
           Journal.pluginA Journal.pluginB Scenes.configured
           Hfind Hq Hother eq_refl).
Defined.

Lemma open_then_doc_witness :
  ("A.scd"%string ≠ "__proto__"%string)
  ∧ ∃ s',
      handleOpenDoc "A.scd" 9%positive Journal.unknownDoc = Some s'
      ∧ doc s' = Js.Return (Js.Own 9%positive)
      ∧ Js.get (docs s') "B.scd" = Js.Own 7%positive.
Proof.
  assert ("A.scd"%string ≠ "__proto__"%string) as Hname by discriminate.
  split; [exact Hname|].
  destruct (open_then_doc "A.scd" 9%positive Journal.unknownDoc Hname)
    as (s' & Hs' & _ & Hdoc & Hothers & _).
  exists s'. split; [exact Hs' | split; [exact Hdoc|]].
  rewrite Hothers by discriminate. vm_compute. reflexivity.
Defined.

Lemma open_commutes_with_undo_redo_witness :
  ("A.scd"%string ≠ "__proto__"%string)
  ∧ ∃ s1,
      handleOpenDoc "A.scd" 9%positive Journal.twoEdits = Some s1
      ∧ handleOpenDoc "A.scd" 9%positive (stateOf (undo 1 Journal.twoEdits))
        = Some (stateOf (undo 1 s1)).
Proof.
  assert ("A.scd"%string ≠ "__proto__"%string) as Hname by discriminate.
  split; [exact Hname|].
  destruct (open_commutes_with_undo_redo "A.scd" 9%positive 1
              Journal.twoEdits Hname) as (s1 & Hs1 & Hundo & _).
  exists s1. split; [exact Hs1 | exact Hundo].
Defined.

Lemma closeWizard_removes_witness :
  (Scenes.wizardC ∉ workflow Scenes.twoWizards)
  ∧ workflow (closeWizard Scenes.wizardC Scenes.twoWizards) = [Scenes.wizardA]
  ∧ workflow Scenes.twoWizards = [] ++ Scenes.wizardA :: [Scenes.wizardB]
  ∧ (Scenes.wizardA ∉ @nil WizardRequest)
  ∧ workflow (closeWizard Scenes.wizardA Scenes.twoWizards) = [Scenes.wizardB].
Proof.
  assert (Scenes.wizardC ∉ workflow Scenes.twoWizards) as Habsent.
  { intros Hin. simpl in Hin.
    repeat (apply elem_of_cons in Hin as [Hin|Hin]; [discriminate|]).
    by apply elem_of_nil in Hin. }
  assert (Scenes.wizardA ∉ @nil WizardRequest) as Hnil
    by apply not_elem_of_nil.
  destruct (closeWizard_removes Scenes.wizardC Scenes.twoWizards)
    as [Hlast _].
  destruct (closeWizard_removes Scenes.wizardA Scenes.twoWizards)
    as [_ Hfirst].
  split; [exact Habsent | split; [exact (Hlast Habsent)|]].
  split; [reflexivity | split; [exact Hnil|]].
  exact (Hfirst [] [Scenes.wizardB] eq_refl Hnil).
Defined.

Lemma wizard_round_trip_witness :
  (subWizard Scenes.wizardB = Some true
   ∨ Scenes.wizardB ∉ workflow Scenes.twoWizards)
  ∧ closeWizard Scenes.wizardB (onWizard Scenes.wizardB Scenes.twoWizards)
    = Scenes.twoWizards.
Proof.
  assert (subWizard Scenes.wizardB = Some true
          ∨ Scenes.wizardB ∉ workflow Scenes.twoWizards) as Hcase
    by (left; reflexivity).
  split; [exact Hcase|].
  exact (wizard_round_trip Scenes.wizardB Scenes.twoWizards Hcase).
Defined.

Lemma key_press_keeps_history_witness :
  cursorInRange Journal.twoEdits
  ∧ history (stateOf (handleKeyPress true "z" Journal.twoEdits).1)
    = history Journal.twoEdits
  ∧ (true = true ∧ hotkeys "z" = Some UndoControl)
  ∧ ∃ s1, handleKeyPress true "z" Journal.twoEdits = (Normal s1, true).
Proof.
  assert (cursorInRange Journal.twoEdits) as Hrange
    by (vm_compute; split; discriminate).
  split; [exact Hrange|].
  destruct (key_press_keeps_history true "z" Journal.twoEdits Hrange)
    as (Hhistory & _ & _ & _ & _ & _ & Hundo & _).
  split; [exact Hhistory | split; [split; reflexivity|]].
  destruct (Hundo eq_refl eq_refl) as (s1 & _ & Hpress).
  exists s1. exact Hpress.
Defined.

Lemma disabled_means_nothing_to_do_witness :
  cursorInRange Journal.midway
  ∧ controlDisabled UndoControl Journal.midway = false
  ∧ (UndoControl = UndoControl ∨ UndoControl = RedoControl)
  ∧ (∃ s', controlAction UndoControl Journal.midway = Normal s'
           ∧ editCount s' = 0)
  ∧ cursorInRange Journal.fresh
  ∧ controlDisabled RedoControl Journal.fresh = true
  ∧ controlAction RedoControl Journal.fresh = Normal Journal.fresh.
Proof.
  assert (cursorInRange Journal.midway) as Hmid
    by (vm_compute; split; discriminate).
  assert (cursorInRange Journal.fresh) as Hfresh
    by (vm_compute; split; discriminate).
  assert (controlDisabled UndoControl Journal.midway = false) as Henabled
    by (vm_compute; reflexivity).
  assert (UndoControl = UndoControl ∨ UndoControl = RedoControl) as Hkind
    by (left; reflexivity).
  destruct (disabled_means_nothing_to_do UndoControl Journal.midway Hmid)
    as [_ Hacts].
  destruct (disabled_means_nothing_to_do RedoControl Journal.fresh Hfresh)
    as [Hnothing _].
  destruct (Hacts Henabled Hkind) as (s' & Hs' & _ & Hcount & _).
  split; [exact Hmid | split; [exact Henabled | split; [exact Hkind|]]].
  split; [exists s'; split; [exact Hs' | exact Hcount]|].
  split; [exact Hfresh | split; [reflexivity | exact (Hnothing eq_refl)]].
Defined.

Lemma element_stays_well_formed_witness :
  Forall (λ st, opensProto st = false) Scenes.session
  ∧ ∃ sh,
      steps Scenes.session (new_Shell (H:=Journal.platform) [] ∅ ∅) = Some sh
      ∧ cursorInRange (element sh)
      ∧ registryOk (element sh).
Proof.
  assert (Forall (λ st, opensProto st = false) Scenes.session) as Hsession
    by (repeat constructor).
  split; [exact Hsession|].
  exact (element_stays_well_formed Scenes.session [] ∅ ∅ Hsession).
Defined.
